(** * atlaskit: label similarity metrics and probabilistic atlas (atlas.py)

    A shallow embedding of the numerical core of [atlas.py]:
    [similarity], [hausdorff_distance], [surface_voxels],
    [label_stats_maps], [get_label_name] and the loading and label
    filtering steps of [main]; then of the pairwise comparison loops, the
    report rows, [parse_range], [bounding_box], [extract_box], and of the
    thresholding loop of [create_mask.py].

    Conventions of the embedding.
    - A numpy array of shape [nx, ny, nz] is a function from voxel indices
      to its cells together with the shape; only cells inside the shape are
      ever read.  [coords] lists the indices in row-major (C) order, the
      order of [np.nonzero] and of every reduction.
    - numpy floats are real numbers ([R]) extended with [NaN]; rounding is
      not modelled.  Voxel counts and indices are integers ([Z]).
    - [scipy.ndimage.binary_erosion] is called with its defaults
      [border_value=0], [origin=0]: cells outside the array count as false. *)

From Stdlib Require Import String Ascii ZArith List Bool Reals Lia Lra Psatz.
From Stdlib Require Import Sorted.
Import ListNotations.

Local Open Scope Z_scope.

(** ** Floating point values *)

Inductive npfloat : Type :=
| NaN : npfloat
| Num : R -> npfloat.

(** ** Index ranges *)

(** [range(0, n)] *)
Definition range (n : nat) : list Z := map Z.of_nat (seq 0 n).

Definition voxel : Type := (Z * Z * Z)%type.

Definition vx (c : voxel) : Z := fst (fst c).
Definition vy (c : voxel) : Z := snd (fst c).
Definition vz (c : voxel) : Z := snd c.

Definition vadd (c d : voxel) : voxel := (vx c + vx d, vy c + vy d, vz c + vz d).

(** Voxel dimensions in mm, [vox_mm[0]], [vox_mm[1]], [vox_mm[2]]. *)
Definition spacing : Type := (R * R * R)%type.

(** ** Elementwise boolean operations *)

Definition mask : Type := voxel -> bool.

Definition logical_and (a b : mask) : mask := fun c => a c && b c.
Definition logical_or (a b : mask) : mask := fun c => a c || b c.
Definition logical_xor (a b : mask) : mask := fun c => xorb (a c) (b c).

(** [np.ones([3,3,3])] as the list of offsets from its centre. *)
Definition structure_ones : list voxel :=
  flat_map (fun dx => flat_map (fun dy => map (fun dz => (dx, dy, dz))
     [-1; 0; 1]) [-1; 0; 1]) [-1; 0; 1].

(** [np.min] and [np.max] of a one-dimensional array with at least one
    element, given as its first element and the rest. *)
Definition np_min (x : R) (t : list R) : R := fold_left Rmin t x.
Definition np_max (x : R) (t : list R) : R := fold_left Rmax t x.

Section Grid.

(** Shape of the label volumes: [labels.shape[2:]]. *)
Variables nx ny nz : nat.

Definition in_grid (c : voxel) : bool :=
  (0 <=? vx c) && (vx c <? Z.of_nat nx) &&
  (0 <=? vy c) && (vy c <? Z.of_nat ny) &&
  (0 <=? vz c) && (vz c <? Z.of_nat nz).

(** All indices of the array in row-major order. *)
Definition coords : list voxel :=
  flat_map (fun x => flat_map (fun y => map (fun z => (x, y, z))
     (range nz)) (range ny)) (range nx).

(** [np.sum] of a boolean array: the number of true cells. *)
Definition np_sum (m : mask) : Z := Z.of_nat (length (filter m coords)).

(** [np.nonzero]: the indices of the true cells, in row-major order
    (the three coordinate arrays zipped). *)
Definition nonzero (m : mask) : list voxel := filter m coords.

(** [binary_erosion(x, structure=np.ones([3,3,3]), iterations=1)] *)
Definition binary_erosion (x : mask) : mask :=
  fun c => in_grid c &&
           forallb (fun d => in_grid (vadd c d) && x (vadd c d)) structure_ones.

(** [surface_voxels]: logical XOR of the mask and the eroded mask. *)
Definition surface_voxels (x : mask) : mask :=
  let x_eroded := binary_erosion x in
  logical_xor x x_eroded.

(** [hausdorff_distance]; the test [nA > 0 and nB > 0] is the match on the
    two point lists, [min_dr[ac]] is [min_dr a], and [H = np.max(min_dr)]. *)
Definition hausdorff_distance (A B : mask) (vox_mm : spacing) : npfloat :=
  let sA := surface_voxels A in
  let sB := surface_voxels B in
  let pA := nonzero sA in
  let pB := nonzero sB in
  match pA, pB with
  | a0 :: tA, b0 :: tB =>
      let min_dr (a : voxel) : R :=
        let dr (b : voxel) : R :=
          let dx := (IZR (vx a - vx b) * fst (fst vox_mm))%R in
          let dy := (IZR (vy a - vy b) * snd (fst vox_mm))%R in
          let dz := (IZR (vz a - vz b) * snd vox_mm)%R in
          sqrt (dx ^ 2 + dy ^ 2 + dz ^ 2) in
        np_min (dr b0) (map dr tB) in
      Num (np_max (min_dr a0) (map min_dr tA))
  | _, _ => NaN
  end.

(** [similarity]: the tuple [(dice, haus, na, nb)]. *)
Definition similarity (mask_a mask_b : mask) (vox_mm : spacing)
  : npfloat * npfloat * Z * Z :=
  let na := np_sum mask_a in
  let nb := np_sum mask_b in
  if (0 <? na) || (0 <? nb) then
    let a_and_b := logical_and mask_a mask_b in
    let a_or_b := logical_or mask_a mask_b in
    let n_a_and_b := np_sum a_and_b in
    let n_a_or_b := np_sum a_or_b in
    let dice := Num (2 * IZR n_a_and_b / IZR (na + nb))%R in
    let haus := hausdorff_distance mask_a mask_b vox_mm in
    (dice, haus, na, nb)
  else
    (NaN, NaN, na, nb).

End Grid.

(** *** The directed Hausdorff distance in the words of the specification

    "for every surface voxel of A, find the minimum physical-space
    Euclidean distance (each axis scaled by voxel spacing) to any surface
    voxel of B, then take the maximum of those per-voxel minima". *)

Definition physical_distance (vox_mm : spacing) (a b : voxel) : R :=
  sqrt ((IZR (vx a - vx b) * fst (fst vox_mm)) ^ 2 +
        (IZR (vy a - vy b) * snd (fst vox_mm)) ^ 2 +
        (IZR (vz a - vz b) * snd vox_mm) ^ 2).

Definition min_distance_to (vox_mm : spacing) (SB : voxel -> Prop)
  (a : voxel) (m : R) : Prop :=
  (exists b, SB b /\ physical_distance vox_mm a b = m) /\
  (forall b, SB b -> (m <= physical_distance vox_mm a b)%R).

Definition directed_hausdorff (vox_mm : spacing) (SA SB : voxel -> Prop)
  (h : R) : Prop :=
  (exists a, SA a /\ min_distance_to vox_mm SB a h) /\
  (forall a m, SA a -> min_distance_to vox_mm SB a m -> (m <= h)%R).

(** The surface of a mask as a set of voxels of the grid. *)
Definition surface_set (nx ny nz : nat) (x : mask) (c : voxel) : Prop :=
  in_grid nx ny nz c = true /\ surface_voxels nx ny nz x c = true.

(** One-voxel erosion with the full 3x3x3 neighbourhood, in the words of
    the specification: a voxel survives when it and its 26 neighbours are
    all inside the grid and in the mask. *)
Definition eroded_26 (nx ny nz : nat) (x : mask) (c : voxel) : Prop :=
  forall dx dy dz : Z,
    -1 <= dx <= 1 -> -1 <= dy <= 1 -> -1 <= dz <= 1 ->
    in_grid nx ny nz (vx c + dx, vy c + dy, vz c + dz) = true /\
    x (vx c + dx, vy c + dy, vz c + dz) = true.

(** Mask relations on the grid. *)
Definition same_mask (nx ny nz : nat) (a b : mask) : Prop :=
  forall c, in_grid nx ny nz c = true -> a c = b c.

Definition disjoint_masks (nx ny nz : nat) (a b : mask) : Prop :=
  forall c, in_grid nx ny nz c = true -> a c && b c = false.

Definition empty_mask (nx ny nz : nat) (a : mask) : Prop :=
  forall c, in_grid nx ny nz c = true -> a c = false.

(** Components of the tuple returned by [similarity]. *)
Definition res_dice (r : npfloat * npfloat * Z * Z) : npfloat := fst (fst (fst r)).
Definition res_haus (r : npfloat * npfloat * Z * Z) : npfloat := snd (fst (fst r)).
Definition res_na (r : npfloat * npfloat * Z * Z) : Z := snd (fst r).
Definition res_nb (r : npfloat * npfloat * Z * Z) : Z := snd r.

(** ** Outcomes of a run: [sys.exit], an uncaught exception, or going on *)

Inductive outcome (T : Type) : Type :=
| Exit : Z -> outcome T
| Raise : string -> outcome T
| Continue : T -> outcome T.

Arguments Exit {T} _.
Arguments Raise {T} _.
Arguments Continue {T} _.

(** [enumerate(l)] *)
Definition enumerate {T : Type} (l : list T) : list (nat * T) :=
  combine (seq 0 (length l)) l.

(** ** The ITK-SNAP label key *)

(** One row of the table read by [load_key], columns
    [Index R G B A Vis Mesh Name]. *)
Record key_row : Type := {
  Index : Z;
  R_ : Z;
  G_ : Z;
  B_ : Z;
  A_ : Z;
  Vis : Z;
  Mesh : Z;
  Name : string
}.

Definition label_key : Type := list key_row.

(** [get_label_name]: the loop over [enumerate(label_key.Index)] overwrites
    [label_name], initially 'Unknown', at every row whose Index matches. *)
Definition get_label_name (label_idx : Z) (key : label_key) : string :=
  fold_left
    (fun label_name row => if label_idx =? Index row then Name row else label_name)
    key
    "Unknown"%string.

(** [np.delete(arr, obj)]: the array without the entries at the positions
    listed in [obj] (all in range here). *)
Definition np_delete {T : Type} (arr : list T) (obj : list nat) : list T :=
  map snd (filter (fun p => negb (existsb (Nat.eqb (fst p)) obj)) (enumerate arr)).

(** [main], "Remove labels not present in key". *)
Definition remove_unknown_labels (label_nos : list Z) (key : label_key) : list Z :=
  let label_unknown :=
    fold_left
      (fun acc p =>
         if String.eqb (get_label_name (snd p) key) "Unknown"
         then acc ++ [fst p] else acc)
      (enumerate label_nos)
      [] in
  np_delete label_nos label_unknown.

(** ** The label volumes of all observers and templates *)

(** [labels[observer][template][x][y][z]], a five-dimensional array of
    label codes with [labels.shape = (n_obs, n_tmp, nx, ny, nz)]. *)
Record labels5 : Type := {
  n_obs : nat;
  n_tmp : nat;
  label_at : nat -> nat -> voxel -> Z
}.

(** [labels == label_no], sliced at one observer and template. *)
Definition label_mask (L : labels5) (label_no : Z) (obs tmp : nat) : mask :=
  fun c => label_at L obs tmp c =? label_no.

Definition similarity_result : Type := (npfloat * npfloat * Z * Z)%type.

Section Metrics.

Variables nx ny nz : nat.

(** [pool.starmap(similarity, data_list)] returns the results in the order
    of [data_list]; the pool itself is not modelled. *)
Definition intra_observer_metrics (L : labels5) (label_no : Z) (vox_mm : spacing)
  : list (list (list similarity_result)) :=
  map (fun obs =>
    map (fun ta =>
      let mask_a := label_mask L label_no obs ta in
      map (fun tb =>
        let mask_b := label_mask L label_no obs tb in
        similarity nx ny nz mask_a mask_b vox_mm)
        (seq 0 (n_tmp L)))
      (seq 0 (n_tmp L)))
    (seq 0 (n_obs L)).

Definition inter_observer_metrics (L : labels5) (label_no : Z) (vox_mm : spacing)
  : list (list (list similarity_result)) :=
  map (fun tmp =>
    map (fun obs_a =>
      let mask_a := label_mask L label_no obs_a tmp in
      map (fun obs_b =>
        let mask_b := label_mask L label_no obs_b tmp in
        similarity nx ny nz mask_a mask_b vox_mm)
        (seq 0 (n_obs L)))
      (seq 0 (n_obs L)))
    (seq 0 (n_tmp L)).

(** A row of a metrics CSV file:
    [(label_name, label_no, i, j, k) + similarity result]. *)
Record csv_row : Type := {
  row_label_name : string;
  row_label_no : Z;
  row_i : nat;
  row_j : nat;
  row_k : nat;
  row_metrics : similarity_result
}.

(** The rows written by [save_intra_metrics] and [save_inter_metrics]
    after the header (both have the same loop nest). *)
Definition save_metrics (metrics : list (list (list (list similarity_result))))
  (label_nos : list Z) (key : label_key) : list csv_row :=
  flat_map (fun '(idx, m_idx) =>
    let label_no := nth idx label_nos 0 in
    let label_name := get_label_name label_no key in
    flat_map (fun '(i, m_i) =>
      flat_map (fun '(j, m_j) =>
        map (fun '(k, m_k) =>
          {| row_label_name := label_name; row_label_no := label_no;
             row_i := i; row_j := j; row_k := k; row_metrics := m_k |})
          (enumerate m_j))
        (enumerate m_i))
      (enumerate m_idx))
    (enumerate metrics).

(** [main] from "Remove labels not present in key" to the two CSV
    reports: the labels handed to [label_stats_maps] (one atlas channel
    each), and the rows of the intra- and inter-observer reports. *)
Definition main_analysis (L : labels5) (label_nos0 : list Z) (key : label_key)
  (vox_mm : spacing) : list Z * list csv_row * list csv_row :=
  let label_nos := remove_unknown_labels label_nos0 key in
  let intra_metrics_all :=
    map (fun label_no => intra_observer_metrics L label_no vox_mm) label_nos in
  let inter_metrics_all :=
    map (fun label_no => inter_observer_metrics L label_no vox_mm) label_nos in
  (label_nos,
   save_metrics intra_metrics_all label_nos key,
   save_metrics inter_metrics_all label_nos key).

End Metrics.

(** ** Mean and variance maps *)

Definition bool_to_R (b : bool) : R := if b then 1%R else 0%R.

Definition Rsum (l : list R) : R := fold_right Rplus 0%R l.

(** [np.mean] and [np.var] along an axis of length [length l]; the mean of
    an empty slice is NaN. *)
Definition np_mean (l : list R) : npfloat :=
  match l with
  | [] => NaN
  | _ => Num (Rsum l / INR (length l))
  end.

Definition np_var (l : list R) : npfloat :=
  match l with
  | [] => NaN
  | _ =>
      let arrmean := (Rsum l / INR (length l))%R in
      Num (Rsum (map (fun x => (x - arrmean) ^ 2)%R l) / INR (length l))
  end.

(** The sum of an array of floats that may hold NaN. *)
Fixpoint float_sum (l : list npfloat) : npfloat :=
  match l with
  | [] => Num 0
  | x :: t =>
      match x, float_sum t with
      | Num a, Num s => Num (a + s)
      | _, _ => NaN
      end
  end.

(** [np.mean] of an array of floats that may hold NaN. *)
Definition np_mean_float (l : list npfloat) : npfloat :=
  match l with
  | [] => NaN
  | _ =>
      match float_sum l with
      | Num s => Num (s / INR (length l))
      | NaN => NaN
      end
  end.

(** The population variance of a nonempty sample, in the usual words: the
    mean of the squared deviations from the sample mean. *)
Definition population_variance (l : list R) : R :=
  let m := (Rsum l / INR (length l))%R in
  (Rsum (map (fun x => (x - m) * (x - m))%R l) / INR (length l))%R.

(** [label_means[:, :, :, lc, oc]] as a function of [lc], [oc] and the
    voxel. *)
Definition stat_maps : Type := nat -> nat -> voxel -> npfloat.

Definition np_zeros : stat_maps := fun _ _ _ => Num 0.

(** [maps[:, :, :, lc, oc] = v] *)
Definition set_map (maps : stat_maps) (lc oc : nat) (v : voxel -> npfloat)
  : stat_maps :=
  fun lc' oc' => if (lc' =? lc)%nat && (oc' =? oc)%nat then v else maps lc' oc'.

(** The values of a label mask over the templates of one observer at one
    voxel, [mask[:, x, y, z]] with [mask = labels_obs == label_no]. *)
Definition mask_over_templates (L : labels5) (oc : nat) (label_no : Z)
  (c : voxel) : list R :=
  map (fun t => bool_to_R (label_mask L label_no oc t c)) (seq 0 (n_tmp L)).

(** [np.mean(mask, axis=0)] and [np.var(mask, axis=0)] for the mask of
    [label_no] over the templates of observer [oc]. *)
Definition mean_over_templates (L : labels5) (oc : nat) (label_no : Z)
  : voxel -> npfloat :=
  fun c => np_mean (mask_over_templates L oc label_no c).

Definition var_over_templates (L : labels5) (oc : nat) (label_no : Z)
  : voxel -> npfloat :=
  fun c => np_var (mask_over_templates L oc label_no c).

(** The loop over [enumerate(label_nos)] for observer [oc]. *)
Definition stats_for_observer (L : labels5) (label_nos : list Z) (oc : nat)
  (st : stat_maps * stat_maps) : stat_maps * stat_maps :=
  fold_left
    (fun st '(lc, label_no) =>
       (set_map (fst st) lc oc (mean_over_templates L oc label_no),
        set_map (snd st) lc oc (var_over_templates L oc label_no)))
    (enumerate label_nos)
    st.

(** The loop over [enumerate(obs_names)]; [labels[oc,:,:,:,:]] raises
    IndexError when [oc] is not below [n_obs]. *)
Fixpoint stats_loop (L : labels5) (label_nos : list Z)
  (obs : list (nat * string)) (st : stat_maps * stat_maps)
  : outcome (stat_maps * stat_maps) :=
  match obs with
  | [] => Continue st
  | (oc, obs_name) :: rest =>
      if (oc <? n_obs L)%nat
      then stats_loop L label_nos rest (stats_for_observer L label_nos oc st)
      else Raise "IndexError"
  end.

(** [label_stats_maps]: the arrays [label_means], [label_vars] (written
    per observer) and the probabilistic atlas [p]. *)
Definition label_stats_maps (L : labels5) (label_nos : list Z)
  (obs_names : list string)
  : outcome (stat_maps * stat_maps * (nat -> voxel -> npfloat)) :=
  match stats_loop L label_nos (enumerate obs_names) (np_zeros, np_zeros) with
  | Continue (label_means, label_vars) =>
      let p := fun lc c =>
        np_mean_float (map (fun oc => label_means lc oc c) (seq 0 (n_obs L))) in
      Continue (label_means, label_vars, p)
  | Raise e => Raise e
  | Exit s => Exit s
  end.

(** The number of templates of observer [oc] whose voxel [c] carries
    [label_no]. *)
Definition templates_with_label (L : labels5) (oc : nat) (label_no : Z)
  (c : voxel) : nat :=
  length (filter (fun t => label_mask L label_no oc t c) (seq 0 (n_tmp L))).

(** ** Loading the label volumes *)

Definition affine : Type := list (list R).

(** What [nib.load] gives for one image. *)
Record nifti : Type := {
  get_data : voxel -> Z;
  get_zooms : spacing;
  get_affine : affine
}.

(** One entry of the sorted glob of observer paths under [label_dir], with
    the images of the sorted glob of its [.nii.gz] files, as loaded. *)
Record obs_entry : Type := {
  basename : string;
  isdir : bool;
  images : list nifti
}.

Record load_state : Type := {
  labels : list (list (voxel -> Z));
  vox_mm : list spacing;
  vox_ul : list R;
  affine_tx : list affine;
  obs_names : list string
}.

Definition load_init : load_state :=
  {| labels := []; vox_mm := []; vox_ul := []; affine_tx := []; obs_names := [] |}.

(** The body of the loop over observer directories. *)
Definition load_observer (st : load_state) (d : obs_entry) : load_state :=
  if isdir d then
    let obs_labels := map get_data (images d) in
    {| labels :=
         if (0 <? length obs_labels)%nat
         then labels st ++ [obs_labels]
         else labels st;
       vox_mm := vox_mm st ++ map get_zooms (images d);
       vox_ul := vox_ul st ++
         map (fun im => let d := get_zooms im in
                        (fst (fst d) * snd (fst d) * snd d)%R) (images d);
       affine_tx := affine_tx st ++ map get_affine (images d);
       obs_names := obs_names st ++ [basename d] |}
  else st.

Definition load_loop (dirs : list obs_entry) : load_state :=
  fold_left load_observer dirs load_init.

Definition R_nonzero (x : R) : bool := if Req_dec_T x 0 then false else true.

(** [vox_mm.any()] on the N x 3 array of voxel dimensions. *)
Definition vox_any (a : list spacing) : bool :=
  existsb (fun d => R_nonzero (fst (fst d)) || R_nonzero (snd (fst d))
                    || R_nonzero (snd d)) a.

(** [np.std] of one row [(x, y, z)] of the array of voxel dimensions. *)
Definition np_std3 (d : spacing) : R :=
  let x := fst (fst d) in
  let y := snd (fst d) in
  let z := snd d in
  let arrmean := ((x + y + z) / 3)%R in
  sqrt (((x - arrmean) ^ 2 + (y - arrmean) ^ 2 + (z - arrmean) ^ 2) / 3).

(** [np.std(vox_mm, axis=1)]: one standard deviation per row, taken over
    the three voxel dimensions of that row. *)
Definition np_std_axis1 (a : list spacing) : list R := map np_std3 a.

(** [np.nonzero] of a one-dimensional float array: the positions of its
    nonzero entries. *)
Definition np_nonzero_1d (a : list R) : list nat :=
  map fst (filter (fun p => R_nonzero (snd p)) (enumerate a)).

(** [any(t)] for the one-element tuple [t = (idx,)] returned by
    [np.nonzero]: the truth value of the index array [idx].  An empty array
    is false (numpy 1.x, which the nibabel calls of this file require), a
    one-element array has the truth value of its element, a longer one
    raises ValueError. *)
Definition any_of_nonzero (idx : list nat) : outcome bool :=
  match idx with
  | [] => Continue false
  | [i] => Continue (negb (i =? 0)%nat)
  | _ :: _ :: _ => Raise "ValueError"
  end.

(** [main] from the loading loop to "Use dimensions from first image":
    the loaded state with [vox_mm[0]] and [vox_ul[0]]. *)
Definition load_volumes (dirs : list obs_entry)
  : outcome (load_state * spacing * R) :=
  let st := load_loop dirs in
  if negb (vox_any (vox_mm st)) then Exit 1
  else
    match any_of_nonzero (np_nonzero_1d (np_std_axis1 (vox_mm st))) with
    | Raise e => Raise e
    | Exit s => Exit s
    | Continue true => Exit 1
    | Continue false =>
        Continue (st, hd (0, 0, 0)%R (vox_mm st), hd 0%R (vox_ul st))
    end.

(** ** Test data *)

(** One observer, three templates; label 1 covers every voxel of the first
    two templates and is absent from the third. *)
Definition one_observer_three_templates : labels5 :=
  {| n_obs := 1; n_tmp := 3;
     label_at := fun obs tmp c => if (tmp <? 2)%nat then 1 else 0 |}.

(** A key with the single label 1. *)
Definition key_with_label_1 : label_key :=
  [ {| Index := 1; R_ := 255; G_ := 0; B_ := 0; A_ := 1; Vis := 1; Mesh := 1;
       Name := "Amygdala" |} ].

(** Two loading states hold the same volumes: they agree on everything but
    the list of observer names. *)
Definition same_volumes (st st' : load_state) : Prop :=
  labels st = labels st' /\ vox_mm st = vox_mm st' /\
  vox_ul st = vox_ul st' /\ affine_tx st = affine_tx st'.

(** Two runs of the loading step end alike: with the same exit status or
    exception, or with the same volumes and voxel dimensions. *)
Definition same_loading (o o' : outcome (load_state * spacing * R)) : Prop :=
  match o, o' with
  | Exit s, Exit s' => s = s'
  | Raise e, Raise e' => e = e'
  | Continue (st, d, u), Continue (st', d', u') =>
      same_volumes st st' /\ d = d' /\ u = u'
  | _, _ => False
  end.

(** A volume of the given voxel dimensions (all voxels background). *)
Definition blank_image (d : spacing) : nifti :=
  {| get_data := fun _ => 0; get_zooms := d; get_affine := [] |}.

(** ** Integer voxel dimensions

    With voxel dimensions that are whole numbers of millimetres every
    squared distance is an integer, and the square root, being monotone,
    commutes with [np.min] and [np.max]: the boundary distance is the
    square root of the max-min of the squared distances, which computes. *)

Definition sq_distance_Z (vox : Z * Z * Z) (a b : voxel) : Z :=
  ((vx a - vx b) * fst (fst vox)) ^ 2 +
  ((vy a - vy b) * snd (fst vox)) ^ 2 +
  ((vz a - vz b) * snd vox) ^ 2.

Definition hausdorff_sq (nx ny nz : nat) (A B : mask) (vox : Z * Z * Z)
  : option Z :=
  match nonzero nx ny nz (surface_voxels nx ny nz A),
        nonzero nx ny nz (surface_voxels nx ny nz B) with
  | a0 :: tA, b0 :: tB =>
      let min_sq (a : voxel) : Z :=
        fold_left Z.min (map (sq_distance_Z vox a) tB) (sq_distance_Z vox a b0) in
      Some (fold_left Z.max (map min_sq tA) (min_sq a0))
  | _, _ => None
  end.

Definition spacing_of_Z (vox : Z * Z * Z) : spacing :=
  (IZR (fst (fst vox)), IZR (snd (fst vox)), IZR (snd vox)).

(** ** Test masks *)

(** The box of voxels [lo <= c <= hi] (componentwise). *)
Definition box (lo hi : voxel) : mask :=
  fun c => (vx lo <=? vx c) && (vx c <=? vx hi) &&
           (vy lo <=? vy c) && (vy c <=? vy hi) &&
           (vz lo <=? vz c) && (vz c <=? vz hi).

(** The 2x2x2 cube with lowest corner [o]. *)
Definition cube2 (o : voxel) : mask := box o (vadd o (1, 1, 1)).

(** ** Bounding box of a mask (atlas.py, [bounding_box], [extract_box]) *)

(** [a[[0, -1]]] for a one-dimensional array [a]: its first and last
    entries; IndexError on an empty array. *)
Definition first_last (a : list Z) : outcome (Z * Z) :=
  match a with
  | [] => Raise "IndexError"
  | h :: t => Continue (h, last t h)
  end.

(** Start or stop of a Python slice on an axis of length [n]. *)
Definition slice_index (n : Z) (i : Z) : Z :=
  if i <? 0 then Z.max (i + n) 0 else Z.min i n.

(** A sliced array: its shape and its cells, indexed from 0. *)
Record box3 : Type := {
  box_shape : nat * nat * nat;
  box_cell : mask
}.

Section BoundingBox.

Variables nx ny nz : nat.

(** [np.any(x, axis=(1, 2))] and its two siblings. *)
Definition any_yz (x : mask) (i : Z) : bool :=
  existsb (fun j => existsb (fun k => x (i, j, k)) (range nz)) (range ny).
Definition any_xz (x : mask) (j : Z) : bool :=
  existsb (fun i => existsb (fun k => x (i, j, k)) (range nz)) (range nx).
Definition any_xy (x : mask) (k : Z) : bool :=
  existsb (fun i => existsb (fun j => x (i, j, k)) (range ny)) (range nx).

Definition bounding_box (x : mask) : outcome (Z * Z * Z * Z * Z * Z) :=
  let px := any_yz x in
  let py := any_xz x in
  let pz := any_xy x in
  match first_last (filter px (range nx)) with
  | Continue (px_min, px_max) =>
      match first_last (filter py (range ny)) with
      | Continue (py_min, py_max) =>
          match first_last (filter pz (range nz)) with
          | Continue (pz_min, pz_max) =>
              Continue (px_min, px_max, py_min, py_max, pz_min, pz_max)
          | Raise e => Raise e
          | Exit s => Exit s
          end
      | Raise e => Raise e
      | Exit s => Exit s
      end
  | Raise e => Raise e
  | Exit s => Exit s
  end.

(** [x[bb[0]:bb[1], bb[2]:bb[3], bb[4]:bb[5]]] *)
Definition extract_box (x : mask) (bb : Z * Z * Z * Z * Z * Z) : box3 :=
  let '(b0, b1, b2, b3, b4, b5) := bb in
  let sx := slice_index (Z.of_nat nx) b0 in
  let ex := slice_index (Z.of_nat nx) b1 in
  let sy := slice_index (Z.of_nat ny) b2 in
  let ey := slice_index (Z.of_nat ny) b3 in
  let sz := slice_index (Z.of_nat nz) b4 in
  let ez := slice_index (Z.of_nat nz) b5 in
  {| box_shape := (Z.to_nat (ex - sx), Z.to_nat (ey - sy), Z.to_nat (ez - sz));
     box_cell := fun c => x (sx + vx c, sy + vy c, sz + vz c) |}.

End BoundingBox.

(** ** Lists of label numbers (atlas.py, [parse_range]) *)

(** [s.split(sep)] for a separator of one character. *)
Fixpoint py_split (sep : ascii) (s : string) : list string :=
  match s with
  | EmptyString => [EmptyString]
  | String c r =>
      if Ascii.eqb c sep then EmptyString :: py_split sep r
      else match py_split sep r with
           | h :: t => String c h :: t
           | [] => [String c EmptyString]
           end
  end.

(** [range(a, b)] *)
Definition py_range (a b : Z) : list Z :=
  map (fun i => a + Z.of_nat i) (seq 0 (Z.to_nat (b - a))).

(** [sorted(result)] for a set [result], kept here as the list of the
    values put into it: the distinct values in ascending order. *)
Fixpoint insert_sorted (n : Z) (l : list Z) : list Z :=
  match l with
  | [] => [n]
  | h :: t =>
      if n <? h then n :: l
      else if n =? h then l
      else h :: insert_sorted n t
  end.

Definition sorted_set (l : list Z) : list Z := fold_right insert_sorted [] l.

Section ParseRange.

(** Python's [int] on a string: [None] stands for ValueError. *)
Variable py_int : string -> option Z.

(** The body of the loop of [parse_range]: the values one part adds. *)
Definition parse_part (part : string) : outcome (list Z) :=
  let x := py_split "-" part in
  match py_int (hd EmptyString x) with
  | None => Raise "ValueError"
  | Some a =>
      match py_int (last x EmptyString) with
      | None => Raise "ValueError"
      | Some b => Continue (py_range a (b + 1))
      end
  end.

Fixpoint parse_range_loop (parts : list string) (result : list Z)
  : outcome (list Z) :=
  match parts with
  | [] => Continue result
  | part :: rest =>
      match parse_part part with
      | Continue r => parse_range_loop rest (result ++ r)
      | Raise e => Raise e
      | Exit s => Exit s
      end
  end.

Definition parse_range (astr : string) : outcome (list Z) :=
  match parse_range_loop (py_split "," astr) [] with
  | Continue result => Continue (sorted_set result)
  | Raise e => Raise e
  | Exit s => Exit s
  end.

End ParseRange.

(** ** The worker pool of the pairwise comparisons *)

(** [with mp.Pool(mp.cpu_count()-2) as pool: pool.starmap(f, data_list)]:
    a pool of fewer than one process raises ValueError; otherwise the
    results come in the order of [data_list]. *)
Definition pool_starmap {A B : Type} (cpu_count : Z) (f : A -> B)
  (data_list : list A) : outcome (list B) :=
  if cpu_count - 2 <? 1 then Raise "ValueError"
  else Continue (map f data_list).

(** A loop that appends the result of each round, stopping at the first
    exception. *)
Fixpoint outcome_map {A B : Type} (f : A -> outcome B) (l : list A)
  : outcome (list B) :=
  match l with
  | [] => Continue []
  | a :: t =>
      match f a with
      | Continue b =>
          match outcome_map f t with
          | Continue bs => Continue (b :: bs)
          | Raise e => Raise e
          | Exit s => Exit s
          end
      | Raise e => Raise e
      | Exit s => Exit s
      end
  end.

Section MetricsPool.

Variables nx ny nz : nat.

(** [intra_observer_metrics] and [inter_observer_metrics] with the pool
    they create for every list of comparisons. *)
Definition intra_observer_metrics_pool (cpu_count : Z) (L : labels5)
  (label_no : Z) (vox_mm : spacing)
  : outcome (list (list (list similarity_result))) :=
  outcome_map (fun obs =>
    outcome_map (fun ta =>
      let mask_a := label_mask L label_no obs ta in
      let data_list :=
        map (fun tb => (mask_a, label_mask L label_no obs tb, vox_mm))
            (seq 0 (n_tmp L)) in
      pool_starmap cpu_count
        (fun '(a, b, v) => similarity nx ny nz a b v) data_list)
      (seq 0 (n_tmp L)))
    (seq 0 (n_obs L)).

Definition inter_observer_metrics_pool (cpu_count : Z) (L : labels5)
  (label_no : Z) (vox_mm : spacing)
  : outcome (list (list (list similarity_result))) :=
  outcome_map (fun tmp =>
    outcome_map (fun obs_a =>
      let mask_a := label_mask L label_no obs_a tmp in
      let data_list :=
        map (fun obs_b => (mask_a, label_mask L label_no obs_b tmp, vox_mm))
            (seq 0 (n_obs L)) in
      pool_starmap cpu_count
        (fun '(a, b, v) => similarity nx ny nz a b v) data_list)
      (seq 0 (n_obs L)))
    (seq 0 (n_tmp L)).

End MetricsPool.

(** ** From the loaded volumes to the atlas *)

(** [np.array(labels)] for a nested list in which every observer has the
    same number of templates: [labels[obs][tmp]] is the volume of template
    [tmp] of observer [obs]. *)
Definition np_array5 (l : list (list (voxel -> Z))) : labels5 :=
  {| n_obs := length l;
     n_tmp := length (hd [] l);
     label_at := fun obs tmp => nth tmp (nth obs l []) (fun _ => 0) |}.

(** [main] from the loading loop to the call of [label_stats_maps], for
    the labels of interest [label_nos]. *)
Definition main_atlas (dirs : list obs_entry) (label_nos : list Z)
  : outcome (stat_maps * stat_maps * (nat -> voxel -> npfloat)) :=
  match load_volumes dirs with
  | Continue (st, _, _) =>
      label_stats_maps (np_array5 (labels st)) label_nos (obs_names st)
  | Raise e => Raise e
  | Exit s => Exit s
  end.

(** ** Thresholding a probabilistic atlas (create_mask.py) *)

(** The four-dimensional atlas image [in_data[x, y, z, label]]. *)
Record atlas_image : Type := {
  n_channels : nat;
  atlas_at : voxel -> nat -> npfloat
}.

(** An integer index on an axis of length [n]: negative indices count
    from the end; [None] stands for IndexError. *)
Definition py_index (n : nat) (i : Z) : option nat :=
  if (0 <=? i) && (i <? Z.of_nat n) then Some (Z.to_nat i)
  else if (- Z.of_nat n <=? i) && (i <? 0) then Some (Z.to_nat (i + Z.of_nat n))
  else None.

(** [v > threshold] for a float [v]; a NaN is not above anything. *)
Definition above (v : npfloat) (threshold : R) : bool :=
  match v with
  | NaN => false
  | Num r => if Rlt_dec threshold r then true else false
  end.

(** The loop over [labels] of create_mask.py. *)
Fixpoint create_mask_loop (in_data : atlas_image) (threshold : R)
  (labels : list Z) (mask_data : voxel -> R) : outcome (voxel -> R) :=
  match labels with
  | [] => Continue mask_data
  | label :: rest =>
      if label <=? Z.of_nat (n_channels in_data) then
        match py_index (n_channels in_data) label with
        | None => Raise "IndexError"
        | Some ch =>
            create_mask_loop in_data threshold rest
              (fun c => if above (atlas_at in_data c ch) threshold
                        then 1%R else mask_data c)
        end
      else create_mask_loop in_data threshold rest mask_data
  end.

(** The mask image saved by create_mask.py, from [np.zeros], for a
    four-dimensional atlas and a threshold given with [-t]. *)
Definition create_mask (in_data : atlas_image) (threshold : R)
  (labels : list Z) : outcome (voxel -> R) :=
  create_mask_loop in_data threshold labels (fun _ => 0%R).

(** A voxel on the border of the array. *)
Definition on_border (nx ny nz : nat) (c : voxel) : Prop :=
  vx c = 0 \/ vx c = Z.of_nat nx - 1 \/
  vy c = 0 \/ vy c = Z.of_nat ny - 1 \/
  vz c = 0 \/ vz c = Z.of_nat nz - 1.

(** The mask with no voxel, and the mask of a single voxel. *)
Definition no_voxel : mask := fun _ => false.
Definition one_voxel (v : voxel) : mask := box v v.

(** [metrics[i][j][k]] of a nested list of comparison results. *)
Definition metrics_entry (m : list (list (list similarity_result)))
  (i j k : nat) : similarity_result :=
  nth k (nth j (nth i m []) []) (NaN, NaN, 0, 0).


(** A reader of unsigned decimal numerals, one of the functions that
    [py_int] can be on such strings; anything else is an error. *)
Fixpoint digits_value (s : string) (acc : Z) : option Z :=
  match s with
  | EmptyString => Some acc
  | String c r =>
      let n := Z.of_nat (nat_of_ascii c) in
      if (48 <=? n) && (n <=? 57) then digits_value r (10 * acc + (n - 48))
      else None
  end.

Definition digits_int (s : string) : option Z :=
  match s with
  | EmptyString => None
  | _ => digits_value s 0
  end.

(** The six numbers bound the mask along the three axes, and each bound
    is reached by a voxel of the mask. *)
Definition tight_bounds (nx ny nz : nat) (x : mask)
  (bb : Z * Z * Z * Z * Z * Z) : Prop :=
  let '(x0, x1, y0, y1, z0, z1) := bb in
  (forall c, in_grid nx ny nz c = true -> x c = true ->
             x0 <= vx c <= x1 /\ y0 <= vy c <= y1 /\ z0 <= vz c <= z1) /\
  (exists c, in_grid nx ny nz c = true /\ x c = true /\ vx c = x0) /\
  (exists c, in_grid nx ny nz c = true /\ x c = true /\ vx c = x1) /\
  (exists c, in_grid nx ny nz c = true /\ x c = true /\ vy c = y0) /\
  (exists c, in_grid nx ny nz c = true /\ x c = true /\ vy c = y1) /\
  (exists c, in_grid nx ny nz c = true /\ x c = true /\ vz c = z0) /\
  (exists c, in_grid nx ny nz c = true /\ x c = true /\ vz c = z1).

(** Some label of the list selects a channel of the atlas whose value at
    the voxel is above the threshold. *)
Definition selected (in_data : atlas_image) (threshold : R) (labels : list Z)
  (c : voxel) : bool :=
  existsb (fun label =>
             (label <=? Z.of_nat (n_channels in_data)) &&
             match py_index (n_channels in_data) label with
             | Some ch => above (atlas_at in_data c ch) threshold
             | None => false
             end) labels.

(** An observer directory without images followed by one with a single
    volume of voxel dimensions (1,1,2). *)
Definition dirs_with_empty_observer : list obs_entry :=
  [ {| basename := "obs-01"; isdir := true; images := [] |};
    {| basename := "obs-02"; isdir := true;
       images := [blank_image (1, 1, 2)%R] |} ].


(** An atlas of two channels: the first is 1 everywhere, the second 0. *)
Definition two_channel_atlas : atlas_image :=
  {| n_channels := 2;
     atlas_at := fun c ch => if (ch =? 0)%nat then Num 1 else Num 0 |}.

(** * Properties *)

(** ** Counting with [filter] *)

Section FilterCount.

Context {T : Type}.

Lemma filter_and_le_l (a b : T -> bool) (l : list T) :
  (length (filter (fun c => a c && b c) l) <= length (filter a l))%nat.
Proof.
  induction l as [|c l IH]; simpl; [lia|].
  destruct (a c), (b c); simpl; lia.
Qed.

Lemma filter_and_le_r (a b : T -> bool) (l : list T) :
  (length (filter (fun c => a c && b c) l) <= length (filter b l))%nat.
Proof.
  induction l as [|c l IH]; simpl; [lia|].
  destruct (a c), (b c); simpl; lia.
Qed.

Lemma filter_and_full_l (a b : T -> bool) (l : list T) :
  length (filter (fun c => a c && b c) l) = length (filter a l) ->
  forall c, In c l -> a c = true -> b c = true.
Proof.
  induction l as [|x l IH]; simpl; intros Hlen c Hin Hac; [contradiction|].
  pose proof (filter_and_le_l a b l) as Hle.
  destruct (a x) eqn:Hax, (b x) eqn:Hbx; simpl in Hlen;
    try (exfalso; lia);
    destruct Hin as [->|Hin]; try congruence; apply IH; auto; lia.
Qed.

Lemma filter_and_comm (a b : T -> bool) (l : list T) :
  filter (fun c => a c && b c) l = filter (fun c => b c && a c) l.
Proof.
  apply filter_ext. intros c. apply andb_comm.
Qed.

Lemma filter_length_zero (f : T -> bool) (l : list T) :
  length (filter f l) = 0%nat <-> forall c, In c l -> f c = false.
Proof.
  induction l as [|x l IH]; simpl.
  - split; [intros _ c []|reflexivity].
  - destruct (f x) eqn:Hfx; simpl.
    + split; [discriminate|]. intros H. specialize (H x (or_introl eq_refl)). congruence.
    + rewrite IH. split.
      * intros H c [->|Hin]; auto.
      * intros H c Hin. apply H. now right.
Qed.

Lemma filter_length_pos (f : T -> bool) (l : list T) :
  (0 < length (filter f l))%nat <-> exists c, In c l /\ f c = true.
Proof.
  split.
  - intros Hpos. destruct (filter f l) as [|c t] eqn:Hf; [simpl in Hpos; lia|].
    assert (Hin : In c (filter f l)) by (rewrite Hf; now left).
    apply filter_In in Hin. now exists c.
  - intros [c [Hin Hc]].
    assert (Hin' : In c (filter f l)) by (apply filter_In; auto).
    destruct (filter f l); [contradiction|simpl; lia].
Qed.

End FilterCount.

(** ** The index grid *)

Lemma in_range (n : nat) (z : Z) : In z (range n) <-> 0 <= z < Z.of_nat n.
Proof.
  unfold range. rewrite in_map_iff. split.
  - intros [k [<- Hk]]. apply in_seq in Hk. lia.
  - intros Hz. exists (Z.to_nat z). split; [lia|]. apply in_seq. lia.
Qed.

Lemma in_coords (nx ny nz : nat) (c : voxel) :
  In c (coords nx ny nz) <-> in_grid nx ny nz c = true.
Proof.
  unfold coords, in_grid. destruct c as [[x y] z]. unfold vx, vy, vz; simpl.
  rewrite in_flat_map. split.
  - intros [x' [Hx Hin]]. apply in_flat_map in Hin. destruct Hin as [y' [Hy Hin]].
    apply in_map_iff in Hin. destruct Hin as [z' [Heq Hz]].
    inversion Heq; subst. apply in_range in Hx, Hy, Hz.
    repeat (apply andb_true_intro; split); lia.
  - intros H. repeat (apply andb_prop in H; destruct H as [H ?]).
    exists x. split; [apply in_range; lia|].
    apply in_flat_map. exists y. split; [apply in_range; lia|].
    apply in_map_iff. exists z. split; [reflexivity|apply in_range; lia].
Qed.

Section GridFacts.

Variables nx ny nz : nat.

Lemma np_sum_nonneg (m : mask) : 0 <= np_sum nx ny nz m.
Proof. unfold np_sum. lia. Qed.

Lemma np_sum_zero (m : mask) :
  np_sum nx ny nz m = 0 <-> empty_mask nx ny nz m.
Proof.
  unfold np_sum, empty_mask.
  rewrite <- Nat2Z.inj_0, Nat2Z.inj_iff, filter_length_zero.
  split; intros H c Hc; apply H; apply in_coords; exact Hc.
Qed.

Lemma np_sum_pos (m : mask) :
  0 < np_sum nx ny nz m <-> exists c, in_grid nx ny nz c = true /\ m c = true.
Proof.
  unfold np_sum. rewrite <- Nat2Z.inj_0, <- Nat2Z.inj_lt, filter_length_pos.
  split; intros [c [Hc Hm]]; exists c; split; auto; apply in_coords; exact Hc.
Qed.

Lemma np_sum_ext (a b : mask) :
  same_mask nx ny nz a b -> np_sum nx ny nz a = np_sum nx ny nz b.
Proof.
  intros H. unfold np_sum. f_equal. f_equal.
  apply filter_ext_in. intros c Hc. apply H. apply in_coords. exact Hc.
Qed.

Lemma nonzero_ext (a b : mask) :
  same_mask nx ny nz a b -> nonzero nx ny nz a = nonzero nx ny nz b.
Proof.
  intros H. unfold nonzero.
  apply filter_ext_in. intros c Hc. apply H. apply in_coords. exact Hc.
Qed.

Lemma in_nonzero (m : mask) (c : voxel) :
  In c (nonzero nx ny nz m) <-> in_grid nx ny nz c = true /\ m c = true.
Proof.
  unfold nonzero. rewrite filter_In, in_coords. reflexivity.
Qed.

Lemma np_sum_and_le_l (a b : mask) :
  np_sum nx ny nz (logical_and a b) <= np_sum nx ny nz a.
Proof.
  unfold np_sum, logical_and. apply inj_le. apply filter_and_le_l.
Qed.

Lemma np_sum_and_le_r (a b : mask) :
  np_sum nx ny nz (logical_and a b) <= np_sum nx ny nz b.
Proof.
  unfold np_sum, logical_and. apply inj_le. apply filter_and_le_r.
Qed.

Lemma np_sum_and_comm (a b : mask) :
  np_sum nx ny nz (logical_and a b) = np_sum nx ny nz (logical_and b a).
Proof.
  unfold np_sum, logical_and. now rewrite filter_and_comm.
Qed.

Lemma np_sum_and_zero (a b : mask) :
  np_sum nx ny nz (logical_and a b) = 0 <-> disjoint_masks nx ny nz a b.
Proof.
  rewrite np_sum_zero. reflexivity.
Qed.

Lemma np_sum_and_full (a b : mask) :
  2 * np_sum nx ny nz (logical_and a b) = np_sum nx ny nz a + np_sum nx ny nz b
  <-> same_mask nx ny nz a b.
Proof.
  split.
  - intros H.
    pose proof (np_sum_and_le_l a b) as Hl.
    pose proof (np_sum_and_le_r a b) as Hr.
    assert (Ha : np_sum nx ny nz (logical_and a b) = np_sum nx ny nz a) by lia.
    assert (Hb : np_sum nx ny nz (logical_and b a) = np_sum nx ny nz b)
      by (rewrite <- np_sum_and_comm; lia).
    unfold np_sum, logical_and in Ha, Hb.
    apply Nat2Z.inj in Ha, Hb.
    intros c Hc. apply in_coords in Hc.
    pose proof (filter_and_full_l a b _ Ha c Hc) as Hab.
    pose proof (filter_and_full_l b a _ Hb c Hc) as Hba.
    destruct (a c), (b c); auto; try (now rewrite Hab); try (now rewrite Hba).
  - intros H.
    assert (Hand : same_mask nx ny nz (logical_and a b) a).
    { intros c Hc. unfold logical_and. rewrite <- (H c Hc). now destruct (a c). }
    rewrite (np_sum_ext _ _ Hand), <- (np_sum_ext _ _ H). lia.
Qed.

End GridFacts.

(** ** The overlap coefficient *)

Lemma Rdiv_eq_iff (a b c : R) : (b <> 0 -> (a / b = c <-> a = c * b))%R.
Proof.
  intros Hb. split; intros H.
  - rewrite <- H. field. exact Hb.
  - rewrite H. field. exact Hb.
Qed.

Lemma dice_bounds (n s : Z) :
  0 <= n -> 2 * n <= s -> 0 < s ->
  (0 <= 2 * IZR n / IZR s <= 1)%R.
Proof.
  intros Hn Hle Hs.
  assert (Hs' : (0 < IZR s)%R) by (apply IZR_lt; exact Hs).
  assert (Hn' : (0 <= IZR n)%R) by (apply IZR_le; exact Hn).
  assert (Hle' : (2 * IZR n <= IZR s)%R).
  { replace (2 * IZR n)%R with (IZR (2 * n)) by (rewrite mult_IZR; reflexivity).
    apply IZR_le; exact Hle. }
  split.
  - apply Rmult_le_pos; [lra|]. left. apply Rinv_0_lt_compat. exact Hs'.
  - apply (Rmult_le_reg_r (IZR s)); [exact Hs'|].
    unfold Rdiv. rewrite Rmult_assoc, Rinv_l by lra. lra.
Qed.

Lemma dice_one (n s : Z) :
  0 < s -> (2 * IZR n / IZR s = 1)%R <-> 2 * n = s.
Proof.
  intros Hs.
  assert (Hs' : (IZR s <> 0)%R) by (apply not_0_IZR; lia).
  rewrite (Rdiv_eq_iff _ _ _ Hs'), Rmult_1_l.
  replace (2 * IZR n)%R with (IZR (2 * n)) by (rewrite mult_IZR; reflexivity).
  split; [apply eq_IZR|intros ->; reflexivity].
Qed.

Lemma dice_zero (n s : Z) :
  0 < s -> (2 * IZR n / IZR s = 0)%R <-> n = 0.
Proof.
  intros Hs.
  assert (Hs' : (IZR s <> 0)%R) by (apply not_0_IZR; lia).
  rewrite (Rdiv_eq_iff _ _ _ Hs'), Rmult_0_l.
  split.
  - intros H. apply eq_IZR. lra.
  - intros ->. lra.
Qed.

(** C2. For every pair of masks: when both voxel counts are zero,
    [similarity] returns NaN for the overlap coefficient and for the
    boundary distance; otherwise the overlap coefficient is
    2 |A and B| / (countA + countB), it lies in [0,1], it is 1 exactly when
    the masks are identical and nonempty, and it is 0 exactly when they are
    disjoint. *)
Theorem similarity_dice (nx ny nz : nat) (A B : mask) (vox : spacing) :
  let r := similarity nx ny nz A B vox in
  let na := np_sum nx ny nz A in
  let nb := np_sum nx ny nz B in
  (na = 0 /\ nb = 0 -> res_dice r = NaN /\ res_haus r = NaN) /\
  (~ (na = 0 /\ nb = 0) ->
   exists d : R,
     res_dice r = Num d /\
     d = (2 * IZR (np_sum nx ny nz (logical_and A B)) / IZR (na + nb))%R /\
     (0 <= d <= 1)%R /\
     (d = 1%R <-> same_mask nx ny nz A B /\ ~ empty_mask nx ny nz A) /\
     (d = 0%R <-> disjoint_masks nx ny nz A B)).
Proof.
  intros r na nb. subst r. unfold similarity. fold na nb.
  pose proof (np_sum_nonneg nx ny nz A) as HA.
  pose proof (np_sum_nonneg nx ny nz B) as HB.
  fold na in HA. fold nb in HB.
  split.
  - intros [Ha Hb]. rewrite Ha, Hb. simpl. split; reflexivity.
  - intros Hnz.
    assert (Hs : 0 < na + nb) by lia.
    assert (Hcond : (0 <? na) || (0 <? nb) = true).
    { apply orb_true_iff. rewrite !Z.ltb_lt. lia. }
    rewrite Hcond. unfold res_dice; simpl.
    eexists. split; [reflexivity|]. split; [reflexivity|].
    pose proof (np_sum_nonneg nx ny nz (logical_and A B)) as Hn.
    pose proof (np_sum_and_le_l nx ny nz A B) as Hl.
    pose proof (np_sum_and_le_r nx ny nz A B) as Hr.
    fold na in Hl. fold nb in Hr.
    split; [apply dice_bounds; lia|]. split.
    + rewrite (dice_one _ _ Hs). unfold na, nb. rewrite np_sum_and_full.
      split.
      * intros Hsame. split; [exact Hsame|].
        intros Hempty. apply np_sum_zero in Hempty.
        pose proof (np_sum_ext nx ny nz A B Hsame). unfold na, nb in *. lia.
      * intros [Hsame _]. exact Hsame.
    + rewrite (dice_zero _ _ Hs). apply np_sum_and_zero.
Qed.

(** ** Erosion and the surface of a mask *)

Lemma in_structure_ones (dx dy dz : Z) :
  In (dx, dy, dz) structure_ones <->
  -1 <= dx <= 1 /\ -1 <= dy <= 1 /\ -1 <= dz <= 1.
Proof.
  unfold structure_ones. rewrite in_flat_map. split.
  - intros [x [Hx Hin]]. apply in_flat_map in Hin. destruct Hin as [y [Hy Hin]].
    apply in_map_iff in Hin. destruct Hin as [z [Heq Hz]].
    inversion Heq; subst. simpl in Hx, Hy, Hz. lia.
  - intros [Hx [Hy Hz]].
    exists dx. split; [simpl; lia|].
    apply in_flat_map. exists dy. split; [simpl; lia|].
    apply in_map_iff. exists dz. split; [reflexivity|simpl; lia].
Qed.

Section SurfaceFacts.

Variables nx ny nz : nat.

Lemma binary_erosion_spec (x : mask) (c : voxel) :
  binary_erosion nx ny nz x c = true <-> eroded_26 nx ny nz x c.
Proof.
  unfold binary_erosion, eroded_26. rewrite andb_true_iff, forallb_forall. split.
  - intros [_ H] dx dy dz Hx Hy Hz.
    specialize (H (dx, dy, dz)). unfold vadd in H; simpl in H.
    apply andb_true_iff. apply H. apply in_structure_ones. auto.
  - intros H. split.
    + destruct (H 0 0 0) as [Hg _]; try lia.
      destruct c as [[x0 y0] z0]. unfold vx, vy, vz in Hg; simpl in Hg.
      now rewrite !Z.add_0_r in Hg.
    + intros [[dx dy] dz] Hd. apply in_structure_ones in Hd.
      unfold vadd, vx, vy, vz; simpl. apply andb_true_iff.
      apply (H dx dy dz); lia.
Qed.

Lemma binary_erosion_subset (x : mask) (c : voxel) :
  binary_erosion nx ny nz x c = true -> x c = true.
Proof.
  intros H. apply binary_erosion_spec in H.
  destruct (H 0 0 0) as [_ Hx]; try lia.
  destruct c as [[x0 y0] z0]. unfold vx, vy, vz in Hx; simpl in Hx.
  now rewrite !Z.add_0_r in Hx.
Qed.

Lemma surface_voxels_diff (x : mask) (c : voxel) :
  surface_voxels nx ny nz x c = x c && negb (binary_erosion nx ny nz x c).
Proof.
  unfold surface_voxels, logical_xor.
  pose proof (binary_erosion_subset x c) as H.
  destruct (binary_erosion nx ny nz x c), (x c); auto.
  discriminate H. reflexivity.
Qed.

Lemma surface_subset (x : mask) (c : voxel) :
  surface_voxels nx ny nz x c = true -> x c = true.
Proof.
  rewrite surface_voxels_diff. intros H. apply andb_prop in H. tauto.
Qed.

Lemma surface_empty (x : mask) :
  empty_mask nx ny nz x -> empty_mask nx ny nz (surface_voxels nx ny nz x).
Proof.
  intros H c Hc. rewrite surface_voxels_diff, (H c Hc). reflexivity.
Qed.

(** A voxel of the mask with no voxel of the mask further along the first
    axis is not eroded: its neighbour in that direction is outside the
    mask or outside the array. *)
Lemma surface_reached (x : mask) (k : nat) :
  forall c, in_grid nx ny nz c = true -> x c = true ->
            (Z.to_nat (Z.of_nat nx - vx c) <= k)%nat ->
            exists s, in_grid nx ny nz s = true /\ surface_voxels nx ny nz x s = true.
Proof.
  induction k as [|k IH]; intros c Hg Hx Hk.
  - exfalso. unfold in_grid in Hg.
    repeat (apply andb_prop in Hg; destruct Hg as [Hg ?]). lia.
  - destruct (in_grid nx ny nz (vadd c (1, 0, 0)) && x (vadd c (1, 0, 0))) eqn:Hn.
    + apply andb_prop in Hn. destruct Hn as [Hg' Hx'].
      apply (IH (vadd c (1, 0, 0))); auto.
      unfold vadd, vx; simpl. unfold vx in Hk. lia.
    + exists c. split; [exact Hg|].
      rewrite surface_voxels_diff, Hx. simpl.
      destruct (binary_erosion nx ny nz x c) eqn:He; [|reflexivity].
      exfalso. apply binary_erosion_spec in He.
      destruct (He 1 0 0) as [H1 H2]; try lia.
      unfold vadd, vx, vy, vz in Hn, H1, H2; simpl in Hn, H1, H2.
      rewrite H1, H2 in Hn. discriminate.
Qed.

Lemma surface_nonempty (x : mask) :
  0 < np_sum nx ny nz x ->
  nonzero nx ny nz (surface_voxels nx ny nz x) <> [].
Proof.
  intros H. apply np_sum_pos in H. destruct H as [c [Hg Hx]].
  destruct (surface_reached x _ c Hg Hx (le_n _)) as [s [Hs1 Hs2]].
  intros Hnil.
  assert (Hin : In s (nonzero nx ny nz (surface_voxels nx ny nz x)))
    by (apply in_nonzero; auto).
  rewrite Hnil in Hin. contradiction.
Qed.

Lemma surface_nil_of_empty (x : mask) :
  np_sum nx ny nz x = 0 ->
  nonzero nx ny nz (surface_voxels nx ny nz x) = [].
Proof.
  intros H. apply np_sum_zero in H. apply surface_empty in H.
  destruct (nonzero nx ny nz (surface_voxels nx ny nz x)) as [|s t] eqn:Hs; [reflexivity|].
  assert (Hin : In s (nonzero nx ny nz (surface_voxels nx ny nz x)))
    by (rewrite Hs; now left).
  apply in_nonzero in Hin. destruct Hin as [Hg Ht].
  rewrite (H s Hg) in Ht. discriminate.
Qed.

(** C6. For every boolean mask the surface extractor returns the
    exclusive-or of the mask with its erosion; the erosion keeps exactly
    the voxels whose full 3x3x3 neighbourhood (26 neighbours and the voxel
    itself) lies in the array and in the mask; the eroded mask is a subset
    of the mask, so the surface is the set difference mask minus eroded;
    and an all-false mask has an all-false surface. *)
Theorem surface_voxels_xor_erosion (x : mask) :
  (forall c, surface_voxels nx ny nz x c
             = xorb (x c) (binary_erosion nx ny nz x c)) /\
  (forall c, binary_erosion nx ny nz x c = true <-> eroded_26 nx ny nz x c) /\
  (forall c, binary_erosion nx ny nz x c = true -> x c = true) /\
  (forall c, surface_voxels nx ny nz x c
             = x c && negb (binary_erosion nx ny nz x c)) /\
  (empty_mask nx ny nz x -> empty_mask nx ny nz (surface_voxels nx ny nz x)).
Proof.
  split; [reflexivity|].
  split; [apply binary_erosion_spec|].
  split; [apply binary_erosion_subset|].
  split; [apply surface_voxels_diff|].
  apply surface_empty.
Qed.

End SurfaceFacts.

(** ** Minimum and maximum of a nonempty array *)

Lemma np_min_in (t : list R) : forall x, In (np_min x t) (x :: t).
Proof.
  unfold np_min. induction t as [|y t IH]; intros x; simpl; [now left|].
  destruct (IH (Rmin x y)) as [H|H]; [|now right; right].
  destruct (Rle_dec x y) as [Hle|Hgt]; [left|right; left]; rewrite <- H.
  - symmetry. apply Rmin_left. exact Hle.
  - symmetry. apply Rmin_right. lra.
Qed.

Lemma np_min_le (t : list R) :
  forall x y, In y (x :: t) -> (np_min x t <= y)%R.
Proof.
  unfold np_min. induction t as [|z t IH]; intros x y Hin; simpl.
  - destruct Hin as [->|[]]. apply Rle_refl.
  - destruct Hin as [->|[->|Hin]].
    + eapply Rle_trans; [apply IH; now left|apply Rmin_l].
    + eapply Rle_trans; [apply IH; now left|apply Rmin_r].
    + apply IH. now right.
Qed.

Lemma np_max_in (t : list R) : forall x, In (np_max x t) (x :: t).
Proof.
  unfold np_max. induction t as [|y t IH]; intros x; simpl; [now left|].
  destruct (IH (Rmax x y)) as [H|H]; [|now right; right].
  destruct (Rle_dec x y) as [Hle|Hgt]; [right; left|left]; rewrite <- H.
  - symmetry. apply Rmax_right. exact Hle.
  - symmetry. apply Rmax_left. lra.
Qed.

Lemma np_max_ge (t : list R) :
  forall x y, In y (x :: t) -> (y <= np_max x t)%R.
Proof.
  unfold np_max. induction t as [|z t IH]; intros x y Hin; simpl.
  - destruct Hin as [->|[]]. apply Rle_refl.
  - destruct Hin as [->|[->|Hin]].
    + eapply Rle_trans; [apply Rmax_l|apply IH; now left].
    + eapply Rle_trans; [apply Rmax_r|apply IH; now left].
    + apply IH. now right.
Qed.

(** ** The boundary distance *)

Lemma min_distance_unique (vox : spacing) (SB : voxel -> Prop) (a : voxel)
  (m m' : R) :
  min_distance_to vox SB a m -> min_distance_to vox SB a m' -> m = m'.
Proof.
  intros [[b [Hb Hm]] Hle] [[b' [Hb' Hm']] Hle'].
  apply Rle_antisym.
  - rewrite <- Hm'. apply Hle. exact Hb'.
  - rewrite <- Hm. apply Hle'. exact Hb.
Qed.

Lemma np_min_is_min_distance (vox : spacing) (l : list voxel) (b0 : voxel)
  (tB : list voxel) (a : voxel) :
  l = b0 :: tB ->
  min_distance_to vox (fun b => In b l) a
    (np_min (physical_distance vox a b0) (map (physical_distance vox a) tB)).
Proof.
  intros ->. split.
  - pose proof (np_min_in (map (physical_distance vox a) tB)
                  (physical_distance vox a b0)) as H.
    change (In (np_min (physical_distance vox a b0)
                  (map (physical_distance vox a) tB))
               (map (physical_distance vox a) (b0 :: tB))) in H.
    apply in_map_iff in H. destruct H as [b [Hb Hin]]. now exists b.
  - intros b Hb. apply np_min_le.
    change (In (physical_distance vox a b) (map (physical_distance vox a) (b0 :: tB))).
    now apply in_map.
Qed.

Section Boundary.

Variables nx ny nz : nat.

Lemma surface_set_nonzero (x : mask) (c : voxel) :
  surface_set nx ny nz x c <-> In c (nonzero nx ny nz (surface_voxels nx ny nz x)).
Proof.
  unfold surface_set. now rewrite in_nonzero.
Qed.

Lemma hausdorff_nan (A B : mask) (vox : spacing) :
  nonzero nx ny nz (surface_voxels nx ny nz A) = [] \/
  nonzero nx ny nz (surface_voxels nx ny nz B) = [] ->
  hausdorff_distance nx ny nz A B vox = NaN.
Proof.
  unfold hausdorff_distance. intros [-> | ->]; [reflexivity|].
  now destruct (nonzero nx ny nz (surface_voxels nx ny nz A)).
Qed.

Lemma hausdorff_directed (A B : mask) (vox : spacing) :
  nonzero nx ny nz (surface_voxels nx ny nz A) <> [] ->
  nonzero nx ny nz (surface_voxels nx ny nz B) <> [] ->
  exists h, hausdorff_distance nx ny nz A B vox = Num h /\
            directed_hausdorff vox (surface_set nx ny nz A) (surface_set nx ny nz B) h.
Proof.
  intros HA HB. unfold hausdorff_distance.
  destruct (nonzero nx ny nz (surface_voxels nx ny nz A)) as [|a0 tA] eqn:EA;
    [congruence|].
  destruct (nonzero nx ny nz (surface_voxels nx ny nz B)) as [|b0 tB] eqn:EB;
    [congruence|].
  set (min_dr := fun a : voxel =>
         np_min (physical_distance vox a b0) (map (physical_distance vox a) tB)).
  exists (np_max (min_dr a0) (map min_dr tA)). split; [reflexivity|].
  assert (Hmin : forall a, min_distance_to vox (surface_set nx ny nz B) a (min_dr a)).
  { intros a.
    destruct (np_min_is_min_distance vox _ b0 tB a EB) as [[b [Hb Hd]] Hle].
    split.
    - exists b. split; [apply surface_set_nonzero; exact Hb|exact Hd].
    - intros b' Hb'. apply Hle. apply surface_set_nonzero. exact Hb'. }
  split.
  - pose proof (np_max_in (map min_dr tA) (min_dr a0)) as H.
    change (In (np_max (min_dr a0) (map min_dr tA)) (map min_dr (a0 :: tA))) in H.
    apply in_map_iff in H. destruct H as [a [Ha Hin]].
    exists a. split.
    + apply surface_set_nonzero. rewrite EA. exact Hin.
    + rewrite <- Ha. apply Hmin.
  - intros a m Ha Hm.
    rewrite (min_distance_unique _ _ _ _ _ Hm (Hmin a)).
    apply np_max_ge.
    change (In (min_dr a) (map min_dr (a0 :: tA))).
    apply in_map. rewrite <- EA. apply surface_set_nonzero. exact Ha.
Qed.

(** C3. For every pair of masks with at least one nonempty: when the
    surface of either mask is empty the boundary distance is NaN; otherwise
    it is the directed Hausdorff distance from the surface of A to the
    surface of B, the maximum over the surface voxels of A of the minimum
    physical distance to a surface voxel of B (not symmetrised). *)
Theorem similarity_boundary_distance (A B : mask) (vox : spacing) :
  0 < np_sum nx ny nz A \/ 0 < np_sum nx ny nz B ->
  let r := similarity nx ny nz A B vox in
  ((forall c, ~ surface_set nx ny nz A c) \/ (forall c, ~ surface_set nx ny nz B c) ->
   res_haus r = NaN) /\
  ((exists a, surface_set nx ny nz A a) /\ (exists b, surface_set nx ny nz B b) ->
   exists h, res_haus r = Num h /\
             directed_hausdorff vox (surface_set nx ny nz A) (surface_set nx ny nz B) h).
Proof.
  intros Hne r. subst r. unfold similarity.
  assert (Hcond : (0 <? np_sum nx ny nz A) || (0 <? np_sum nx ny nz B) = true).
  { apply orb_true_iff. rewrite !Z.ltb_lt. exact Hne. }
  rewrite Hcond. unfold res_haus; simpl. split.
  - intros H. apply hausdorff_nan.
    destruct H as [H|H]; [left|right].
    + destruct (nonzero nx ny nz (surface_voxels nx ny nz A)) as [|s t] eqn:E;
        [reflexivity|].
      exfalso. apply (H s). apply surface_set_nonzero. rewrite E. now left.
    + destruct (nonzero nx ny nz (surface_voxels nx ny nz B)) as [|s t] eqn:E;
        [reflexivity|].
      exfalso. apply (H s). apply surface_set_nonzero. rewrite E. now left.
  - intros [[a Ha] [b Hb]]. apply hausdorff_directed.
    + apply surface_set_nonzero in Ha. intros E. rewrite E in Ha. contradiction.
    + apply surface_set_nonzero in Hb. intros E. rewrite E in Hb. contradiction.
Qed.

End Boundary.

(** ** Boundary distance with integer voxel dimensions *)

Lemma fold_min_monotone (f : Z -> R) :
  (forall x y, x <= y -> (f x <= f y)%R) ->
  forall t x, fold_left Rmin (map f t) (f x) = f (fold_left Z.min t x).
Proof.
  intros Hf. induction t as [|y t IH]; intros x; simpl; [reflexivity|].
  rewrite <- IH. f_equal.
  destruct (Z.le_ge_cases x y) as [H|H].
  - rewrite Z.min_l by exact H. apply Rmin_left. apply Hf. exact H.
  - rewrite Z.min_r by exact H. apply Rmin_right. apply Hf. exact H.
Qed.

Lemma fold_max_monotone (f : Z -> R) :
  (forall x y, x <= y -> (f x <= f y)%R) ->
  forall t x, fold_left Rmax (map f t) (f x) = f (fold_left Z.max t x).
Proof.
  intros Hf. induction t as [|y t IH]; intros x; simpl; [reflexivity|].
  rewrite <- IH. f_equal.
  destruct (Z.le_ge_cases x y) as [H|H].
  - rewrite Z.max_r by exact H. apply Rmax_right. apply Hf. exact H.
  - rewrite Z.max_l by exact H. apply Rmax_left. apply Hf. exact H.
Qed.

Lemma sqrt_IZR_monotone (x y : Z) : x <= y -> (sqrt (IZR x) <= sqrt (IZR y))%R.
Proof.
  intros H. apply sqrt_le_1_alt. apply IZR_le. exact H.
Qed.

Lemma physical_distance_Z (vox : Z * Z * Z) (a b : voxel) :
  physical_distance (spacing_of_Z vox) a b = sqrt (IZR (sq_distance_Z vox a b)).
Proof.
  unfold physical_distance, sq_distance_Z, spacing_of_Z. cbn [fst snd].
  f_equal. rewrite !plus_IZR, <- !mult_IZR, !pow_IZR. reflexivity.
Qed.

Lemma hausdorff_distance_Z (nx ny nz : nat) (A B : mask) (vox : Z * Z * Z) :
  hausdorff_distance nx ny nz A B (spacing_of_Z vox) =
  match hausdorff_sq nx ny nz A B vox with
  | Some s => Num (sqrt (IZR s))
  | None => NaN
  end.
Proof.
  unfold hausdorff_distance, hausdorff_sq.
  destruct (nonzero nx ny nz (surface_voxels nx ny nz A)) as [|a0 tA]; [reflexivity|].
  destruct (nonzero nx ny nz (surface_voxels nx ny nz B)) as [|b0 tB]; [reflexivity|].
  f_equal.
  set (min_sq := fun a : voxel =>
         fold_left Z.min (map (sq_distance_Z vox a) tB) (sq_distance_Z vox a b0)).
  assert (Hmin : forall a,
            np_min (physical_distance (spacing_of_Z vox) a b0)
                   (map (physical_distance (spacing_of_Z vox) a) tB)
            = sqrt (IZR (min_sq a))).
  { intros a. unfold np_min, min_sq.
    rewrite <- (fold_min_monotone (fun s => sqrt (IZR s)) sqrt_IZR_monotone).
    rewrite map_map, physical_distance_Z. f_equal.
    apply map_ext. intros b. apply physical_distance_Z. }
  change (np_max
            (np_min (physical_distance (spacing_of_Z vox) a0 b0)
               (map (physical_distance (spacing_of_Z vox) a0) tB))
            (map (fun a => np_min (physical_distance (spacing_of_Z vox) a b0)
                             (map (physical_distance (spacing_of_Z vox) a) tB)) tA)
          = sqrt (IZR (fold_left Z.max (map min_sq tA) (min_sq a0)))).
  unfold np_max.
  rewrite <- (fold_max_monotone (fun s => sqrt (IZR s)) sqrt_IZR_monotone).
  rewrite map_map, Hmin. f_equal.
  apply map_ext. intros a. apply Hmin.
Qed.

Lemma similarity_nonempty (nx ny nz : nat) (A B : mask) (vox : spacing) :
  0 < np_sum nx ny nz A + np_sum nx ny nz B ->
  similarity nx ny nz A B vox =
  (Num (2 * IZR (np_sum nx ny nz (logical_and A B))
        / IZR (np_sum nx ny nz A + np_sum nx ny nz B)),
   hausdorff_distance nx ny nz A B vox,
   np_sum nx ny nz A, np_sum nx ny nz B).
Proof.
  intros H. unfold similarity.
  pose proof (np_sum_nonneg nx ny nz A). pose proof (np_sum_nonneg nx ny nz B).
  assert (Hcond : (0 <? np_sum nx ny nz A) || (0 <? np_sum nx ny nz B) = true).
  { apply orb_true_iff. rewrite !Z.ltb_lt. lia. }
  rewrite Hcond. reflexivity.
Qed.

Lemma sqrt_9 : sqrt 9 = 3%R.
Proof.
  replace 9%R with (3 * 3)%R by lra. apply sqrt_square. lra.
Qed.

(** ** Comparing a mask with itself *)

Lemma physical_distance_self (vox : spacing) (a : voxel) :
  physical_distance vox a a = 0%R.
Proof.
  unfold physical_distance. rewrite !Z.sub_diag.
  replace ((0 * fst (fst vox)) ^ 2 + (0 * snd (fst vox)) ^ 2 + (0 * snd vox) ^ 2)%R
    with 0%R by ring.
  apply sqrt_0.
Qed.

Lemma physical_distance_nonneg (vox : spacing) (a b : voxel) :
  (0 <= physical_distance vox a b)%R.
Proof. apply sqrt_pos. Qed.

Lemma hausdorff_self (nx ny nz : nat) (A : mask) (vox : spacing) :
  0 < np_sum nx ny nz A ->
  hausdorff_distance nx ny nz A A vox = Num 0.
Proof.
  intros Hpos. apply surface_nonempty in Hpos.
  unfold hausdorff_distance.
  destruct (nonzero nx ny nz (surface_voxels nx ny nz A)) as [|a0 tA] eqn:EA;
    [congruence|].
  set (min_dr := fun a : voxel =>
         np_min (physical_distance vox a a0) (map (physical_distance vox a) tA)).
  change (Num (np_max (min_dr a0) (map min_dr tA)) = Num 0).
  assert (Hzero : forall a, In a (a0 :: tA) -> min_dr a = 0%R).
  { intros a Ha. unfold min_dr. apply Rle_antisym.
    - rewrite <- (physical_distance_self vox a). apply np_min_le.
      change (In (physical_distance vox a a)
                 (map (physical_distance vox a) (a0 :: tA))).
      now apply in_map.
    - pose proof (np_min_in (map (physical_distance vox a) tA)
                    (physical_distance vox a a0)) as H.
      change (In (np_min (physical_distance vox a a0)
                    (map (physical_distance vox a) tA))
                 (map (physical_distance vox a) (a0 :: tA))) in H.
      apply in_map_iff in H. destruct H as [b [<- _]].
      apply physical_distance_nonneg. }
  f_equal.
  pose proof (np_max_in (map min_dr tA) (min_dr a0)) as H.
  change (In (np_max (min_dr a0) (map min_dr tA)) (map min_dr (a0 :: tA))) in H.
  apply in_map_iff in H. destruct H as [a [<- Ha]]. apply Hzero. exact Ha.
Qed.

(** C7. For every nonempty mask A and every voxel spacing (positive or
    not), comparing A with itself gives overlap coefficient 1 and boundary
    distance 0; for an empty mask A the self-comparison gives NaN for both
    metrics. *)
Theorem similarity_self (nx ny nz : nat) (A : mask) (vox : spacing) :
  let r := similarity nx ny nz A A vox in
  ((exists c, in_grid nx ny nz c = true /\ A c = true) ->
   res_dice r = Num 1 /\ res_haus r = Num 0) /\
  (empty_mask nx ny nz A -> res_dice r = NaN /\ res_haus r = NaN).
Proof.
  intros r. subst r. split.
  - intros Hne. apply np_sum_pos in Hne.
    rewrite similarity_nonempty by lia.
    unfold res_dice, res_haus; cbn [fst snd]. split.
    + f_equal. apply dice_one; [lia|].
      apply np_sum_and_full. intros c _. reflexivity.
    + apply hausdorff_self. exact Hne.
  - intros Hempty. apply np_sum_zero in Hempty.
    unfold similarity. rewrite Hempty. simpl. split; reflexivity.
Qed.

(** ** Symmetry of the overlap, asymmetry of the boundary distance *)

Lemma similarity_dice_sym (nx ny nz : nat) (A B : mask) (vox : spacing) :
  res_dice (similarity nx ny nz A B vox) = res_dice (similarity nx ny nz B A vox).
Proof.
  unfold similarity.
  rewrite (orb_comm (0 <? np_sum nx ny nz A)).
  destruct ((0 <? np_sum nx ny nz B) || (0 <? np_sum nx ny nz A)); [|reflexivity].
  unfold res_dice; cbn [fst snd].
  rewrite (np_sum_and_comm nx ny nz A B), (Z.add_comm (np_sum nx ny nz A)).
  reflexivity.
Qed.

Lemma sqrt_3_neq_1 : sqrt 3 <> 1%R.
Proof.
  intros H.
  assert (H3 : (sqrt 3 * sqrt 3 = 3)%R) by (apply sqrt_sqrt; lra).
  rewrite H in H3. lra.
Qed.

(** C8. The overlap coefficient of comparing A with B equals that of
    comparing B with A, for every pair of masks; the boundary distance is
    not symmetric: for a single voxel A inside a 3x3x3 block B (unit
    spacing) the distance from A to B is 1 and from B to A it is the square
    root of 3. *)
Theorem dice_symmetric_hausdorff_not :
  (forall nx ny nz A B vox,
     res_dice (similarity nx ny nz A B vox)
     = res_dice (similarity nx ny nz B A vox)) /\
  (exists nx ny nz A B vox,
     res_haus (similarity nx ny nz A B vox) = Num 1 /\
     res_haus (similarity nx ny nz B A vox) = Num (sqrt 3) /\
     res_haus (similarity nx ny nz A B vox)
     <> res_haus (similarity nx ny nz B A vox)).
Proof.
  split; [apply similarity_dice_sym|].
  exists 5%nat, 5%nat, 5%nat, (box (2, 2, 2) (2, 2, 2)), (box (1, 1, 1) (3, 3, 3)),
         (spacing_of_Z (1, 1, 1)).
  assert (HAB : res_haus (similarity 5 5 5 (box (2, 2, 2) (2, 2, 2))
                            (box (1, 1, 1) (3, 3, 3)) (spacing_of_Z (1, 1, 1)))
                = Num 1).
  { rewrite similarity_nonempty by (vm_compute; reflexivity).
    unfold res_haus; cbn [fst snd]. rewrite hausdorff_distance_Z.
    replace (hausdorff_sq 5 5 5 (box (2, 2, 2) (2, 2, 2))
               (box (1, 1, 1) (3, 3, 3)) (1, 1, 1))
      with (Some 1) by (vm_compute; reflexivity).
    now rewrite sqrt_1. }
  assert (HBA : res_haus (similarity 5 5 5 (box (1, 1, 1) (3, 3, 3))
                            (box (2, 2, 2) (2, 2, 2)) (spacing_of_Z (1, 1, 1)))
                = Num (sqrt 3)).
  { rewrite similarity_nonempty by (vm_compute; reflexivity).
    unfold res_haus; cbn [fst snd]. rewrite hausdorff_distance_Z.
    replace (hausdorff_sq 5 5 5 (box (1, 1, 1) (3, 3, 3))
               (box (2, 2, 2) (2, 2, 2)) (1, 1, 1))
      with (Some 3) by (vm_compute; reflexivity).
    reflexivity. }
  split; [exact HAB|]. split; [exact HBA|].
  rewrite HAB, HBA. intros H. injection H as H.
  apply sqrt_3_neq_1. symmetry. exact H.
Qed.

(** ** Two disjoint cubes *)

(** C4. Two disjoint 2x2x2 cubes of the same label, the second being the
    first moved by 3 voxels along the x axis, with voxel spacing (1,1,1) mm:
    the overlap coefficient is 0 and the boundary distance is 3 in both
    directions.  The cubes are placed inside a 7x4x4 volume, away from its
    border. *)
Theorem two_cubes_scenario :
  let A := cube2 (1, 1, 1) in
  let B := cube2 (4, 1, 1) in
  let vox := spacing_of_Z (1, 1, 1) in
  vox = (1, 1, 1)%R /\
  np_sum 7 4 4 A = 8 /\ np_sum 7 4 4 B = 8 /\
  disjoint_masks 7 4 4 A B /\
  res_dice (similarity 7 4 4 A B vox) = Num 0 /\
  res_haus (similarity 7 4 4 A B vox) = Num 3 /\
  res_dice (similarity 7 4 4 B A vox) = Num 0 /\
  res_haus (similarity 7 4 4 B A vox) = Num 3.
Proof.
  intros A B vox.
  assert (Hand : np_sum 7 4 4 (logical_and A B) = 0) by (vm_compute; reflexivity).
  assert (Hand' : np_sum 7 4 4 (logical_and B A) = 0) by (vm_compute; reflexivity).
  split; [reflexivity|].
  split; [vm_compute; reflexivity|].
  split; [vm_compute; reflexivity|].
  split; [apply np_sum_and_zero; exact Hand|].
  rewrite !similarity_nonempty by (vm_compute; reflexivity).
  unfold res_dice, res_haus; cbn [fst snd].
  rewrite Hand, Hand'. unfold vox. rewrite !hausdorff_distance_Z.
  replace (hausdorff_sq 7 4 4 A B (1, 1, 1)) with (Some 9)
    by (vm_compute; reflexivity).
  replace (hausdorff_sq 7 4 4 B A (1, 1, 1)) with (Some 9)
    by (vm_compute; reflexivity).
  rewrite sqrt_9.
  repeat split; f_equal; apply dice_zero; vm_compute; reflexivity.
Qed.

(** ** The label key *)

Lemma get_label_name_fold_absent (label_idx : Z) (key : label_key) :
  (forall row, In row key -> Index row <> label_idx) ->
  forall init,
    fold_left (fun label_name row =>
                 if label_idx =? Index row then Name row else label_name)
              key init = init.
Proof.
  induction key as [|r key IH]; intros Habs init; simpl; [reflexivity|].
  assert (Hr : (label_idx =? Index r) = false).
  { apply Z.eqb_neq. intros E. apply (Habs r); [now left|now symmetry]. }
  rewrite Hr. apply IH. intros row Hin. apply Habs. now right.
Qed.

Lemma get_label_name_absent (label_idx : Z) (key : label_key) :
  ~ In label_idx (map Index key) ->
  get_label_name label_idx key = "Unknown"%string.
Proof.
  intros Habs. unfold get_label_name. apply get_label_name_fold_absent.
  intros row Hin E. apply Habs. rewrite <- E. now apply in_map.
Qed.

Lemma get_label_name_last (pre post : label_key) (row : key_row) :
  (forall r, In r post -> Index r <> Index row) ->
  get_label_name (Index row) (pre ++ row :: post) = Name row.
Proof.
  intros Hpost. unfold get_label_name.
  rewrite fold_left_app. simpl. rewrite Z.eqb_refl.
  apply get_label_name_fold_absent. exact Hpost.
Qed.

Lemma get_label_name_known (label_idx : Z) (key : label_key) :
  get_label_name label_idx key <> "Unknown"%string ->
  In label_idx (map Index key).
Proof.
  intros H. destruct (in_dec Z.eq_dec label_idx (map Index key)) as [Hin|Hout];
    [exact Hin|].
  exfalso. apply H. now apply get_label_name_absent.
Qed.

(** ** Removing unknown labels *)

Lemma in_enumerate_from {T : Type} (l : list T) :
  forall k i x, In (i, x) (combine (seq k (length l)) l) ->
                (k <= i)%nat /\ nth_error l (i - k) = Some x.
Proof.
  induction l as [|y l IH]; intros k i x Hin; simpl in Hin; [contradiction|].
  destruct Hin as [Heq|Hin].
  - inversion Heq; subst. rewrite Nat.sub_diag. split; [lia|reflexivity].
  - apply IH in Hin. destruct Hin as [Hk Hn]. split; [lia|].
    replace (i - k)%nat with (S (i - S k)) by lia. exact Hn.
Qed.

Lemma in_enumerate_unique {T : Type} (l : list T) (i : nat) (x y : T) :
  In (i, x) (enumerate l) -> In (i, y) (enumerate l) -> x = y.
Proof.
  unfold enumerate. intros Hx Hy.
  apply in_enumerate_from in Hx, Hy. destruct Hx as [_ Hx], Hy as [_ Hy].
  congruence.
Qed.

Lemma in_enumerate_lt {T : Type} (l : list T) (i : nat) (x : T) :
  In (i, x) (enumerate l) -> (i < length l)%nat.
Proof.
  unfold enumerate. intros H. apply in_combine_l in H. apply in_seq in H. lia.
Qed.

Lemma in_enumerate_snd {T : Type} (l : list T) (i : nat) (x : T) :
  In (i, x) (enumerate l) -> In x l.
Proof.
  unfold enumerate. intros H. now apply in_combine_r in H.
Qed.

Lemma fold_append_positions {T : Type} (P : nat * T -> bool) (l : list (nat * T)) :
  forall acc,
    fold_left (fun acc p => if P p then acc ++ [fst p] else acc) l acc
    = acc ++ map fst (filter P l).
Proof.
  induction l as [|p l IH]; intros acc; simpl; [now rewrite app_nil_r|].
  rewrite IH. destruct (P p); simpl; [now rewrite <- app_assoc|reflexivity].
Qed.

Lemma filter_snd_combine {T : Type} (P : T -> bool) (l : list T) :
  forall s : list nat, length s = length l ->
    map snd (filter (fun p => P (snd p)) (combine s l)) = filter P l.
Proof.
  induction l as [|x l IH]; intros s Hs; destruct s as [|i s]; simpl in *;
    try discriminate; [reflexivity|].
  destruct (P x); simpl; rewrite IH by lia; reflexivity.
Qed.

Lemma remove_unknown_labels_filter (label_nos : list Z) (key : label_key) :
  remove_unknown_labels label_nos key =
  filter (fun l => negb (String.eqb (get_label_name l key) "Unknown")) label_nos.
Proof.
  unfold remove_unknown_labels, np_delete.
  rewrite (fold_append_positions
             (fun p => String.eqb (get_label_name (snd p) key) "Unknown")).
  simpl.
  rewrite <- (filter_snd_combine
                (fun l => negb (String.eqb (get_label_name l key) "Unknown"))
                label_nos (seq 0 (length label_nos)))
    by apply length_seq.
  f_equal. apply filter_ext_in. intros [i x] Hin. simpl. f_equal.
  destruct (String.eqb (get_label_name x key) "Unknown") eqn:Hx.
  - apply existsb_exists. exists i. split; [|apply Nat.eqb_refl].
    apply in_map_iff. exists (i, x). split; [reflexivity|].
    apply filter_In. split; [exact Hin|exact Hx].
  - apply not_true_is_false. intros H. apply existsb_exists in H.
    destruct H as [j [Hj Hij]]. apply Nat.eqb_eq in Hij. subst j.
    apply in_map_iff in Hj. destruct Hj as [[i' y] [Hi Hy]]. simpl in Hi. subst i'.
    apply filter_In in Hy. destruct Hy as [Hy1 Hy2]. simpl in Hy2.
    rewrite (in_enumerate_unique _ _ _ _ Hin Hy1) in Hx. congruence.
Qed.

Lemma remove_unknown_labels_in (label_nos : list Z) (key : label_key) (l : Z) :
  In l (remove_unknown_labels label_nos key) <->
  In l label_nos /\ get_label_name l key <> "Unknown"%string.
Proof.
  rewrite remove_unknown_labels_filter, filter_In, negb_true_iff.
  rewrite <- String.eqb_neq. reflexivity.
Qed.

Lemma save_metrics_label (metrics : list (list (list (list similarity_result))))
  (label_nos : list Z) (key : label_key) (row : csv_row) :
  length metrics = length label_nos ->
  In row (save_metrics metrics label_nos key) ->
  In (row_label_no row) label_nos /\
  row_label_name row = get_label_name (row_label_no row) key.
Proof.
  intros Hlen Hin. unfold save_metrics in Hin.
  apply in_flat_map in Hin. destruct Hin as [[idx m_idx] [Hidx Hin]].
  apply in_flat_map in Hin. destruct Hin as [[i m_i] [_ Hin]].
  apply in_flat_map in Hin. destruct Hin as [[j m_j] [_ Hin]].
  apply in_map_iff in Hin. destruct Hin as [[k m_k] [<- _]]. simpl.
  split; [|reflexivity].
  apply nth_In. apply in_enumerate_lt in Hidx. lia.
Qed.

Lemma main_analysis_rows (nx ny nz : nat) (L : labels5) (label_nos0 : list Z)
  (key : label_key) (vox : spacing) (row : csv_row) :
  let '(label_nos, intra, inter) := main_analysis nx ny nz L label_nos0 key vox in
  label_nos = remove_unknown_labels label_nos0 key /\
  (In row intra \/ In row inter -> In (row_label_no row) label_nos).
Proof.
  unfold main_analysis. split; [reflexivity|].
  intros [H|H]; apply save_metrics_label in H;
    try (now rewrite length_map); tauto.
Qed.

Lemma unknown_name_not_analysed (nx ny nz : nat) (L : labels5)
  (label_nos0 : list Z) (key : label_key) (vox : spacing) (label_no : Z) :
  get_label_name label_no key = "Unknown"%string ->
  let '(label_nos, intra, inter) := main_analysis nx ny nz L label_nos0 key vox in
  ~ In label_no label_nos /\
  (forall row, In row intra -> row_label_no row <> label_no) /\
  (forall row, In row inter -> row_label_no row <> label_no).
Proof.
  intros Hname.
  assert (Hout : ~ In label_no (remove_unknown_labels label_nos0 key)).
  { rewrite remove_unknown_labels_in. tauto. }
  pose proof (main_analysis_rows nx ny nz L label_nos0 key vox) as Hrows.
  unfold main_analysis in *.
  split; [exact Hout|].
  split; intros row Hin E; destruct (Hrows row) as [_ Hrow];
    apply Hout; rewrite <- E; apply Hrow; tauto.
Qed.

(** C9. Looking up a label code that is absent from the key table gives
    the name "Unknown"; every such code is removed from the list of labels
    of interest, so no atlas channel and no row of the intra- or
    inter-observer report is produced for a code that is not in the key. *)
Theorem absent_label_excluded (nx ny nz : nat) (L : labels5)
  (label_nos0 : list Z) (key : label_key) (vox : spacing) (label_no : Z) :
  ~ In label_no (map Index key) ->
  get_label_name label_no key = "Unknown"%string /\
  ~ In label_no (remove_unknown_labels label_nos0 key) /\
  let '(label_nos, intra, inter) := main_analysis nx ny nz L label_nos0 key vox in
  ~ In label_no label_nos /\
  (forall row, In row intra -> row_label_no row <> label_no) /\
  (forall row, In row inter -> row_label_no row <> label_no).
Proof.
  intros Habs.
  assert (Hname : get_label_name label_no key = "Unknown"%string)
    by (now apply get_label_name_absent).
  split; [exact Hname|]. split.
  - rewrite remove_unknown_labels_in. tauto.
  - now apply unknown_name_not_analysed.
Qed.

(** C10. A label code that is present in the key table, and whose row
    (the last row with that Index) carries the Name "Unknown", is removed
    from the labels of interest like an absent code: no atlas channel and
    no report row is produced for it.  When several rows share an Index,
    the lookup returns the Name of the last of them. *)
Theorem unknown_name_excluded_last_row_wins :
  (forall (nx ny nz : nat) (L : labels5) (vox : spacing)
          (pre post : label_key) (row : key_row) (label_nos0 : list Z),
      Name row = "Unknown"%string ->
      (forall r, In r post -> Index r <> Index row) ->
      let key := pre ++ row :: post in
      In (Index row) (map Index key) /\
      ~ In (Index row) (remove_unknown_labels label_nos0 key) /\
      let '(label_nos, intra, inter) := main_analysis nx ny nz L label_nos0 key vox in
      ~ In (Index row) label_nos /\
      (forall r, In r intra -> row_label_no r <> Index row) /\
      (forall r, In r inter -> row_label_no r <> Index row)) /\
  (forall (pre post : label_key) (row : key_row),
      (forall r, In r post -> Index r <> Index row) ->
      get_label_name (Index row) (pre ++ row :: post) = Name row).
Proof.
  split.
  - intros nx ny nz L vox pre post row label_nos0 Hname Hpost key.
    assert (Hlook : get_label_name (Index row) key = "Unknown"%string)
      by (unfold key; now rewrite get_label_name_last).
    split; [|split].
    + unfold key. rewrite map_app. apply in_or_app. right. now left.
    + rewrite remove_unknown_labels_in. tauto.
    + now apply unknown_name_not_analysed.
  - intros pre post row Hpost. now apply get_label_name_last.
Qed.

(** ** Mean and variance maps *)

Lemma Rsum_bools {T : Type} (f : T -> bool) (l : list T) :
  Rsum (map (fun t => bool_to_R (f t)) l) = INR (length (filter f l)).
Proof.
  induction l as [|x l IH]; cbn [map Rsum fold_right filter]; [reflexivity|].
  fold (Rsum (map (fun t => bool_to_R (f t)) l)). rewrite IH.
  destruct (f x); cbn [bool_to_R length].
  - rewrite S_INR. lra.
  - lra.
Qed.

Lemma Rsum_sq_dev_bools {T : Type} (f : T -> bool) (l : list T) (m : R) :
  Rsum (map (fun x => (x - m) * (x - m))%R (map (fun t => bool_to_R (f t)) l))
  = (INR (length (filter f l)) * ((1 - m) * (1 - m))
     + (INR (length l) - INR (length (filter f l))) * (m * m))%R.
Proof.
  induction l as [|x l IH]; cbn [map Rsum fold_right filter length].
  - simpl. lra.
  - fold (Rsum (map (fun x => (x - m) * (x - m))%R
                  (map (fun t => bool_to_R (f t)) l))).
    rewrite IH. rewrite S_INR.
    destruct (f x); cbn [bool_to_R length]; [rewrite S_INR|]; lra.
Qed.

Lemma Rsum_pow2 (l : list R) (m : R) :
  Rsum (map (fun x => (x - m) ^ 2)%R l) = Rsum (map (fun x => (x - m) * (x - m))%R l).
Proof.
  f_equal. apply map_ext. intros x. ring.
Qed.

Lemma variance_closed_form (k n : R) :
  (n <> 0 ->
   (k * ((1 - k / n) * (1 - k / n)) + (n - k) * (k / n * (k / n))) / n
   = k / n * (1 - k / n))%R.
Proof.
  intros Hn. field. exact Hn.
Qed.

Section StatsFacts.

Variable L : labels5.

Lemma mask_over_templates_length (oc : nat) (label_no : Z) (c : voxel) :
  length (mask_over_templates L oc label_no c) = n_tmp L.
Proof.
  unfold mask_over_templates. now rewrite length_map, length_seq.
Qed.

Lemma mask_over_templates_sum (oc : nat) (label_no : Z) (c : voxel) :
  Rsum (mask_over_templates L oc label_no c)
  = INR (templates_with_label L oc label_no c).
Proof.
  unfold mask_over_templates, templates_with_label.
  apply (Rsum_bools (fun t => label_mask L label_no oc t c)).
Qed.

Lemma mask_over_templates_cons (oc : nat) (label_no : Z) (c : voxel) :
  (0 < n_tmp L)%nat ->
  exists x t, mask_over_templates L oc label_no c = x :: t.
Proof.
  intros Hn. pose proof (mask_over_templates_length oc label_no c) as Hlen.
  destruct (mask_over_templates L oc label_no c) as [|x t]; simpl in Hlen; [lia|].
  now exists x, t.
Qed.

Lemma np_mean_templates (oc : nat) (label_no : Z) (c : voxel) :
  (0 < n_tmp L)%nat ->
  np_mean (mask_over_templates L oc label_no c)
  = Num (INR (templates_with_label L oc label_no c) / INR (n_tmp L)).
Proof.
  intros Hn.
  pose proof (mask_over_templates_sum oc label_no c) as Hsum.
  pose proof (mask_over_templates_length oc label_no c) as Hlen.
  destruct (mask_over_templates_cons oc label_no c Hn) as [x [t E]].
  rewrite E in *. unfold np_mean. now rewrite Hsum, Hlen.
Qed.

Lemma np_var_templates (oc : nat) (label_no : Z) (c : voxel) :
  (0 < n_tmp L)%nat ->
  np_var (mask_over_templates L oc label_no c)
  = Num (population_variance (mask_over_templates L oc label_no c)).
Proof.
  intros Hn.
  destruct (mask_over_templates_cons oc label_no c Hn) as [x [t E]].
  rewrite E. unfold np_var, population_variance. now rewrite Rsum_pow2.
Qed.

Lemma population_variance_templates (oc : nat) (label_no : Z) (c : voxel) :
  (0 < n_tmp L)%nat ->
  let p := (INR (templates_with_label L oc label_no c) / INR (n_tmp L))%R in
  population_variance (mask_over_templates L oc label_no c) = (p * (1 - p))%R.
Proof.
  intros Hn p. unfold population_variance.
  rewrite mask_over_templates_sum, mask_over_templates_length.
  unfold mask_over_templates at 1.
  rewrite (Rsum_sq_dev_bools (fun t => label_mask L label_no oc t c)).
  rewrite length_seq. fold (templates_with_label L oc label_no c).
  apply variance_closed_form. apply not_0_INR. lia.
Qed.

End StatsFacts.

Section StatsLoops.

Variable L : labels5.
Variable label_nos : list Z.

Lemma set_map_same (maps : stat_maps) (lc oc : nat) (v : voxel -> npfloat) :
  set_map maps lc oc v lc oc = v.
Proof.
  unfold set_map. now rewrite !Nat.eqb_refl.
Qed.

Lemma set_map_other (maps : stat_maps) (lc oc lc' oc' : nat) (v : voxel -> npfloat) :
  lc' <> lc \/ oc' <> oc -> set_map maps lc oc v lc' oc' = maps lc' oc'.
Proof.
  intros H. unfold set_map.
  destruct (Nat.eqb_spec lc' lc), (Nat.eqb_spec oc' oc); simpl; auto.
  exfalso. tauto.
Qed.

Lemma stats_inner_from (oc : nat) (labs : list Z) :
  forall (k : nat) (st : stat_maps * stat_maps) (lc oc' : nat),
    let st' :=
      fold_left
        (fun st '(lc, label_no) =>
           (set_map (fst st) lc oc (mean_over_templates L oc label_no),
            set_map (snd st) lc oc (var_over_templates L oc label_no)))
        (combine (seq k (length labs)) labs) st in
    (oc' = oc /\ (k <= lc < k + length labs)%nat ->
     fst st' lc oc' = mean_over_templates L oc (nth (lc - k) labs 0) /\
     snd st' lc oc' = var_over_templates L oc (nth (lc - k) labs 0)) /\
    (~ (oc' = oc /\ (k <= lc < k + length labs)%nat) ->
     fst st' lc oc' = fst st lc oc' /\ snd st' lc oc' = snd st lc oc').
Proof.
  induction labs as [|x labs IH]; intros k st lc oc'; cbn [length seq combine fold_left].
  - split; [intros [_ H]; exfalso; lia|intros _; split; reflexivity].
  - set (st1 := (set_map (fst st) k oc (mean_over_templates L oc x),
                 set_map (snd st) k oc (var_over_templates L oc x))).
    destruct (IH (S k) st1 lc oc') as [Hin Hout]. split.
    + intros [Hoc Hlc]. destruct (Nat.eq_dec lc k) as [->|Hne].
      * destruct Hout as [H1 H2]; [lia|]. rewrite H1, H2.
        unfold st1; cbn [fst snd]. subst oc'. rewrite !set_map_same.
        rewrite Nat.sub_diag. split; reflexivity.
      * destruct Hin as [H1 H2]; [split; [exact Hoc|lia]|].
        rewrite H1, H2. replace (lc - k)%nat with (S (lc - S k)) by lia.
        split; reflexivity.
    + intros Hnot. destruct Hout as [H1 H2]; [intros [Hoc Hlc]; apply Hnot; split; [exact Hoc|lia]|].
      rewrite H1, H2. unfold st1; cbn [fst snd].
      rewrite !set_map_other; [split; reflexivity| |];
        destruct (Nat.eq_dec oc' oc); auto; left; intros ->; apply Hnot; split; auto; lia.
Qed.

Lemma stats_for_observer_spec (oc : nat) (st : stat_maps * stat_maps) (lc oc' : nat) :
  let st' := stats_for_observer L label_nos oc st in
  (oc' = oc /\ (lc < length label_nos)%nat ->
   fst st' lc oc' = mean_over_templates L oc (nth lc label_nos 0) /\
   snd st' lc oc' = var_over_templates L oc (nth lc label_nos 0)) /\
  (~ (oc' = oc /\ (lc < length label_nos)%nat) ->
   fst st' lc oc' = fst st lc oc' /\ snd st' lc oc' = snd st lc oc').
Proof.
  unfold stats_for_observer, enumerate.
  destruct (stats_inner_from oc label_nos 0 st lc oc') as [Hin Hout].
  rewrite Nat.sub_0_r in Hin. split.
  - intros [Hoc Hlc]. apply Hin. split; [exact Hoc|lia].
  - intros Hnot. apply Hout. intros [Hoc Hlc]. apply Hnot. split; [exact Hoc|lia].
Qed.

Lemma stats_loop_from (names : list string) :
  forall (k : nat) (st : stat_maps * stat_maps),
    (k + length names <= n_obs L)%nat ->
    exists st',
      stats_loop L label_nos (combine (seq k (length names)) names) st = Continue st' /\
      forall lc oc,
        ((k <= oc < k + length names)%nat /\ (lc < length label_nos)%nat ->
         fst st' lc oc = mean_over_templates L oc (nth lc label_nos 0) /\
         snd st' lc oc = var_over_templates L oc (nth lc label_nos 0)) /\
        (~ ((k <= oc < k + length names)%nat /\ (lc < length label_nos)%nat) ->
         fst st' lc oc = fst st lc oc /\ snd st' lc oc = snd st lc oc).
Proof.
  induction names as [|nm names IH]; intros k st Hk; cbn [length seq combine stats_loop].
  - exists st. split; [reflexivity|]. intros lc oc. split.
    + intros [H _]. exfalso. lia.
    + intros _. split; reflexivity.
  - simpl in Hk.
    assert (Hlt : (k <? n_obs L)%nat = true) by (apply Nat.ltb_lt; lia).
    rewrite Hlt.
    destruct (IH (S k) (stats_for_observer L label_nos k st)) as [st' [Hrun Hst']];
      [lia|].
    exists st'. split; [exact Hrun|]. intros lc oc.
    destruct (Hst' lc oc) as [Hin Hout].
    destruct (stats_for_observer_spec k st lc oc) as [Hin1 Hout1]. split.
    + intros [Hoc Hlc]. destruct (Nat.eq_dec oc k) as [->|Hne].
      * destruct Hout as [H1 H2]; [lia|]. rewrite H1, H2.
        apply Hin1. split; [reflexivity|exact Hlc].
      * apply Hin. split; [lia|exact Hlc].
    + intros Hnot. destruct Hout as [H1 H2]; [intros [Hoc Hlc]; apply Hnot; split; [lia|exact Hlc]|].
      rewrite H1, H2. apply Hout1. intros [-> Hlc]. apply Hnot. split; [lia|exact Hlc].
Qed.

Lemma float_sum_nums (f : nat -> R) (g : nat -> npfloat) (l : list nat) :
  (forall i, In i l -> g i = Num (f i)) ->
  float_sum (map g l) = Num (Rsum (map f l)).
Proof.
  induction l as [|i l IH]; intros H; simpl; [reflexivity|].
  rewrite (H i) by (now left). rewrite IH by (intros j Hj; apply H; now right).
  reflexivity.
Qed.

End StatsLoops.

(** C5. For every label and observer the mean map is the elementwise mean
    over the observer's templates of the 0/1 label mask, so a voxel
    labelled in exactly k of the n templates gets k/n; the variance map is
    the elementwise population variance of the same masks (which is
    (k/n)(1 - k/n)); and the probabilistic atlas of the label is the
    elementwise mean, over all observers, of their mean maps.  The list of
    observer names is the one the label array was built from. *)
Theorem label_stats_maps_mean_var (L : labels5) (label_nos : list Z)
  (names : list string) :
  length names = n_obs L -> (0 < n_obs L)%nat -> (0 < n_tmp L)%nat ->
  exists label_means label_vars p,
    label_stats_maps L label_nos names = Continue (label_means, label_vars, p) /\
    forall (lc : nat) (c : voxel),
      (lc < length label_nos)%nat ->
      let label_no := nth lc label_nos 0 in
      let n := INR (n_tmp L) in
      let k := fun oc => INR (templates_with_label L oc label_no c) in
      (forall oc, (oc < n_obs L)%nat ->
         label_means lc oc c = Num (k oc / n) /\
         label_vars lc oc c
         = Num (population_variance (mask_over_templates L oc label_no c)) /\
         label_vars lc oc c = Num (k oc / n * (1 - k oc / n))) /\
      p lc c = Num (Rsum (map (fun oc => k oc / n) (seq 0 (n_obs L)))
                    / INR (n_obs L))%R.
Proof.
  intros Hlen Hobs Htmp. unfold label_stats_maps, enumerate.
  destruct (stats_loop_from L label_nos names 0 (np_zeros, np_zeros))
    as [[label_means label_vars] [Hrun Hst]]; [simpl; lia|].
  rewrite Hrun.
  eexists label_means, label_vars, _. split; [reflexivity|].
  intros lc c Hlc. cbv beta.
  set (label_no := nth lc label_nos 0).
  set (n := INR (n_tmp L)).
  set (k := fun oc => INR (templates_with_label L oc label_no c)).
  assert (Hmaps : forall oc, (oc < n_obs L)%nat ->
            label_means lc oc = mean_over_templates L oc label_no /\
            label_vars lc oc = var_over_templates L oc label_no).
  { intros oc Hoc. destruct (Hst lc oc) as [Hin _].
    apply Hin. split; [simpl; lia|exact Hlc]. }
  split.
  - intros oc Hoc. destruct (Hmaps oc Hoc) as [Hm Hv]. rewrite Hm, Hv.
    unfold mean_over_templates, var_over_templates.
    rewrite np_mean_templates, np_var_templates by exact Htmp.
    rewrite population_variance_templates by exact Htmp.
    repeat split; reflexivity.
  - assert (Hsum : float_sum (map (fun oc => label_means lc oc c) (seq 0 (n_obs L)))
                   = Num (Rsum (map (fun oc => k oc / n)%R (seq 0 (n_obs L))))).
    { apply float_sum_nums. intros oc Hoc. apply in_seq in Hoc.
      destruct (Hmaps oc) as [Hm _]; [lia|]. rewrite Hm.
      unfold mean_over_templates. apply np_mean_templates. exact Htmp. }
    unfold np_mean_float.
    destruct (map (fun oc => label_means lc oc c) (seq 0 (n_obs L)))
      as [|y ys] eqn:E.
    { exfalso. apply (f_equal (@length npfloat)) in E.
      rewrite length_map, length_seq in E. simpl in E. lia. }
    rewrite Hsum, <- E, length_map, length_seq. reflexivity.
Qed.

(** ** Loading the label volumes *)

Lemma R_nonzero_0 : R_nonzero 0 = false.
Proof.
  unfold R_nonzero. destruct (Req_dec_T 0 0) as [_|H]; [reflexivity|].
  exfalso. now apply H.
Qed.

Lemma R_nonzero_neq (x : R) : x <> 0%R -> R_nonzero x = true.
Proof.
  intros Hx. unfold R_nonzero. destruct (Req_dec_T x 0) as [H|_]; [|reflexivity].
  contradiction.
Qed.

Lemma same_volumes_refl (st : load_state) : same_volumes st st.
Proof. repeat split. Qed.

Lemma load_observer_same_volumes (st st' : load_state) (d : obs_entry) :
  same_volumes st st' -> same_volumes (load_observer st d) (load_observer st' d).
Proof.
  intros [Hl [Hm [Hu Ha]]]. unfold load_observer, same_volumes.
  destruct (isdir d); cbn [labels vox_mm vox_ul affine_tx]; [|auto].
  rewrite Hl, Hm, Hu, Ha. auto.
Qed.

Lemma load_fold_same_volumes (dirs : list obs_entry) :
  forall st st', same_volumes st st' ->
                 same_volumes (fold_left load_observer dirs st)
                              (fold_left load_observer dirs st').
Proof.
  induction dirs as [|d dirs IH]; intros st st' H; simpl; [exact H|].
  apply IH. now apply load_observer_same_volumes.
Qed.

Lemma load_observer_no_images (st : load_state) (d : obs_entry) :
  isdir d = false \/ images d = [] -> same_volumes (load_observer st d) st.
Proof.
  intros H. unfold load_observer, same_volumes.
  destruct (isdir d); [|auto].
  destruct H as [H|H]; [discriminate|]. rewrite H.
  cbn [labels vox_mm vox_ul affine_tx map length]. rewrite !app_nil_r. auto.
Qed.

Lemma load_loop_skips (pre post : list obs_entry) (d : obs_entry) :
  isdir d = false \/ images d = [] ->
  same_volumes (load_loop (pre ++ d :: post)) (load_loop (pre ++ post)).
Proof.
  intros H. unfold load_loop. rewrite !fold_left_app. simpl.
  apply load_fold_same_volumes. now apply load_observer_no_images.
Qed.

Lemma load_loop_no_images (dirs : list obs_entry) :
  (forall d, In d dirs -> isdir d = false \/ images d = []) ->
  same_volumes (load_loop dirs) load_init.
Proof.
  unfold load_loop. generalize load_init as st.
  induction dirs as [|d dirs IH]; intros st H; simpl; [apply same_volumes_refl|].
  destruct (IH (load_observer st d)) as [Hl [Hm [Hu Ha]]];
    [intros d' Hd'; apply H; now right|].
  destruct (load_observer_no_images st d) as [Hl' [Hm' [Hu' Ha']]];
    [apply H; now left|].
  unfold same_volumes. rewrite Hl, Hm, Hu, Ha. auto.
Qed.

Lemma load_volumes_same_volumes (dirs dirs' : list obs_entry) :
  same_volumes (load_loop dirs) (load_loop dirs') ->
  same_loading (load_volumes dirs) (load_volumes dirs').
Proof.
  intros H. pose proof H as [Hl [Hm [Hu Ha]]]. unfold load_volumes, same_loading.
  rewrite Hm, Hu.
  destruct (negb (vox_any (vox_mm (load_loop dirs')))); [reflexivity|].
  destruct (any_of_nonzero (np_nonzero_1d (np_std_axis1 (vox_mm (load_loop dirs')))))
    as [s|e|[|]]; auto.
Qed.

Lemma vox_any_head (d : spacing) (a : list spacing) :
  fst (fst d) <> 0%R -> vox_any (d :: a) = true.
Proof.
  intros H. unfold vox_any. cbn [existsb]. now rewrite (R_nonzero_neq _ H).
Qed.

(** With a single loaded volume the check of the voxel dimensions
    passes whatever they are: the index array returned by [np.nonzero] is
    empty or holds the index 0, and both are false. *)
Lemma single_volume_check (d : spacing) :
  any_of_nonzero (np_nonzero_1d (np_std_axis1 [d])) = Continue false.
Proof.
  unfold np_nonzero_1d, np_std_axis1, enumerate. cbn [map length seq combine filter snd].
  match goal with |- context [R_nonzero ?s] => destruct (R_nonzero s) end;
    reflexivity.
Qed.

Lemma np_std3_zero_iff (d : spacing) :
  np_std3 d = 0%R <-> fst (fst d) = snd (fst d) /\ snd (fst d) = snd d.
Proof.
  destruct d as [[x y] z]. unfold np_std3. cbn [fst snd]. split.
  - intros H.
    pose proof (pow2_ge_0 (x - (x + y + z) / 3)) as Ha.
    pose proof (pow2_ge_0 (y - (x + y + z) / 3)) as Hb.
    pose proof (pow2_ge_0 (z - (x + y + z) / 3)) as Hc.
    apply sqrt_eq_0 in H; [|lra].
    assert (Hx : ((x - (x + y + z) / 3) ^ 2 = 0)%R) by lra.
    assert (Hy : ((y - (x + y + z) / 3) ^ 2 = 0)%R) by lra.
    rewrite <- Rsqr_pow2 in Hx, Hy. apply Rsqr_eq_0 in Hx, Hy.
    split; lra.
  - intros [-> ->].
    replace (((z - (z + z + z) / 3) ^ 2 + (z - (z + z + z) / 3) ^ 2
              + (z - (z + z + z) / 3) ^ 2) / 3)%R with 0%R by field.
    apply sqrt_0.
Qed.

Lemma np_nonzero_1d_from (a : list R) :
  forall k, map fst (filter (fun p => R_nonzero (snd p)) (combine (seq k (length a)) a))
            = [] <-> (forall s, In s a -> s = 0%R).
Proof.
  induction a as [|s a IH]; intros k; cbn [length seq combine filter snd].
  - split; [intros _ s []|reflexivity].
  - unfold R_nonzero at 1. destruct (Req_dec_T s 0) as [Hs|Hs].
    + rewrite IH. split.
      * intros H t [<-|Ht]; auto.
      * intros H t Ht. apply H. now right.
    + cbn [map]. split; [discriminate|].
      intros H. exfalso. apply Hs. apply H. now left.
Qed.

(** The check of the voxel dimensions passes as soon as every volume is
    isotropic, whether or not the volumes agree with each other: the
    standard deviation is taken along axis 1, within each volume. *)
Lemma isotropic_volumes_check (a : list spacing) :
  (forall d, In d a -> fst (fst d) = snd (fst d) /\ snd (fst d) = snd d) ->
  any_of_nonzero (np_nonzero_1d (np_std_axis1 a)) = Continue false.
Proof.
  intros H. unfold np_nonzero_1d, enumerate.
  assert (E : map fst (filter (fun p => R_nonzero (snd p))
                         (combine (seq 0 (length (np_std_axis1 a))) (np_std_axis1 a)))
              = []).
  { apply np_nonzero_1d_from. intros s Hs. unfold np_std_axis1 in Hs.
    apply in_map_iff in Hs. destruct Hs as [d [<- Hd]].
    apply np_std3_zero_iff. now apply H. }
  rewrite E. reflexivity.
Qed.

(** Runs the loading loop on a literal list of observer directories. *)
Ltac run_load_loop :=
  unfold load_volumes, load_loop; cbn [fold_left];
  unfold load_observer;
  cbn [isdir images map blank_image get_zooms get_data get_affine length
       Nat.ltb Nat.leb labels vox_mm vox_ul affine_tx obs_names load_init app hd].

(** Two volumes with voxel dimensions (1,1,1) and (2,2,2) are loaded
    without complaint, and the dimensions of the first are used. *)
Lemma isotropic_mismatch_loaded :
  exists st u,
    load_volumes [ {| basename := "obs-01"; isdir := true;
                      images := [blank_image (1, 1, 1)%R; blank_image (2, 2, 2)%R] |} ]
    = Continue (st, (1, 1, 1)%R, u) /\
    vox_mm st = [(1, 1, 1)%R; (2, 2, 2)%R].
Proof.
  run_load_loop.
  eexists _, _. rewrite vox_any_head by (cbn [fst]; lra). cbn [negb].
  rewrite isotropic_volumes_check.
  - split; reflexivity.
  - intros d [<-|[<-|[]]]; cbn [fst snd]; split; reflexivity.
Qed.

(** Two volumes that agree on the anisotropic voxel dimensions (1,1,2)
    stop the run with an exception: [np.nonzero] returns two indices, and
    the truth value of an array of two elements is undefined. *)
Lemma consistent_anisotropic_raises :
  load_volumes [ {| basename := "obs-01"; isdir := true;
                    images := [blank_image (1, 1, 2)%R; blank_image (1, 1, 2)%R] |} ]
  = Raise "ValueError".
Proof.
  run_load_loop.
  rewrite vox_any_head by (cbn [fst]; lra). cbn [negb].
  assert (Hstd : R_nonzero (np_std3 (1, 1, 2)%R) = true).
  { apply R_nonzero_neq. intros H. apply np_std3_zero_iff in H.
    cbn [fst snd] in H. lra. }
  unfold np_nonzero_1d, np_std_axis1, enumerate.
  cbn [map length seq combine filter snd]. rewrite Hstd.
  reflexivity.
Qed.

(** C1, counterexample. An observer directory without images does not
    stop the run: it is passed over (its name is kept), and the single
    volume of the second observer, of voxel dimensions (1,1,2), is loaded. *)
Lemma empty_observer_not_fatal :
  exists st u,
    load_volumes [ {| basename := "obs-01"; isdir := true; images := [] |};
                   {| basename := "obs-02"; isdir := true;
                      images := [blank_image (1, 1, 2)%R] |} ]
    = Continue (st, (1, 1, 2)%R, u) /\
    obs_names st = ["obs-01"; "obs-02"]%string /\
    length (labels st) = 1%nat /\
    vox_mm st = [(1, 1, 2)%R].
Proof.
  run_load_loop.
  eexists _, _. rewrite vox_any_head by (cbn [fst]; lra). cbn [negb].
  rewrite single_volume_check.
  repeat split; reflexivity.
Qed.

(** C1 (amended). Loading aborts with exit status 1, before any atlas or
    metric is computed, when the whole set is empty: no observer directory
    contributes a volume.  An observer that contributes zero volumes is
    not an error: it is passed over, and the run loads the same volumes,
    with the same voxel dimensions, and ends the loading step the same way
    as without that observer. *)
Theorem load_empty_set_exits_empty_observer_skipped :
  (forall dirs,
      (forall d, In d dirs -> isdir d = false \/ images d = []) ->
      load_volumes dirs = Exit 1) /\
  (forall pre d post,
      images d = [] ->
      same_volumes (load_loop (pre ++ d :: post)) (load_loop (pre ++ post)) /\
      same_loading (load_volumes (pre ++ d :: post)) (load_volumes (pre ++ post))).
Proof.
  split.
  - intros dirs H. apply load_loop_no_images in H.
    destruct H as [_ [Hm _]]. unfold load_volumes. rewrite Hm. reflexivity.
  - intros pre d post Hd.
    assert (H : same_volumes (load_loop (pre ++ d :: post)) (load_loop (pre ++ post)))
      by (apply load_loop_skips; now right).
    split; [exact H|]. now apply load_volumes_same_volumes.
Qed.

(** * Instances *)

(** A single voxel against the 3x3x3 block around it, in a 5x5x5 volume:
    both surfaces are nonempty and the boundary distance is the directed
    Hausdorff distance between them. *)
Lemma similarity_boundary_distance_witness :
  (0 < np_sum 5 5 5 (box (2, 2, 2) (2, 2, 2)) \/
   0 < np_sum 5 5 5 (box (1, 1, 1) (3, 3, 3))) /\
  exists h,
    res_haus (similarity 5 5 5 (box (2, 2, 2) (2, 2, 2)) (box (1, 1, 1) (3, 3, 3))
                (1, 1, 1)%R) = Num h /\
    directed_hausdorff (1, 1, 1)%R
      (surface_set 5 5 5 (box (2, 2, 2) (2, 2, 2)))
      (surface_set 5 5 5 (box (1, 1, 1) (3, 3, 3))) h.
Proof.
  assert (H : 0 < np_sum 5 5 5 (box (2, 2, 2) (2, 2, 2)) \/
              0 < np_sum 5 5 5 (box (1, 1, 1) (3, 3, 3)))
    by (left; vm_compute; reflexivity).
  split; [exact H|].
  apply (similarity_boundary_distance 5 5 5 _ _ (1, 1, 1)%R H).
  split.
  - exists (2, 2, 2). split; vm_compute; reflexivity.
  - exists (1, 1, 1). split; vm_compute; reflexivity.
Defined.

(** One observer, three templates, the label on templates 1 and 2 only:
    the mean at a voxel is 2/3, the variance (2/3)(1/3), and the atlas
    value 2/3. *)
Lemma label_stats_maps_mean_var_witness :
  exists label_means label_vars p,
    label_stats_maps one_observer_three_templates [1] ["obs-01"%string]
    = Continue (label_means, label_vars, p) /\
    label_means 0%nat 0%nat (0, 0, 0) = Num (2 / 3) /\
    label_vars 0%nat 0%nat (0, 0, 0) = Num (2 / 3 * (1 - 2 / 3)) /\
    p 0%nat (0, 0, 0) = Num (2 / 3).
Proof.
  destruct (label_stats_maps_mean_var one_observer_three_templates [1]
              ["obs-01"%string])
    as [label_means [label_vars [p [Hrun Hmaps]]]];
    [reflexivity|simpl; lia|simpl; lia|].
  exists label_means, label_vars, p. split; [exact Hrun|].
  destruct (Hmaps 0%nat (0, 0, 0)) as [Hobs Hp]; [simpl; lia|].
  destruct (Hobs 0%nat) as [Hm [_ Hv]]; [simpl; lia|].
  rewrite Hm, Hv, Hp.
  cbn [n_tmp n_obs one_observer_three_templates seq map Rsum fold_right].
  replace (templates_with_label one_observer_three_templates 0
             (nth 0 [1] 0) (0, 0, 0)) with 2%nat by reflexivity.
  replace (INR 2) with 2%R by (simpl; lra).
  replace (INR 3) with 3%R by (simpl; lra).
  replace (INR 1) with 1%R by reflexivity.
  repeat split; apply f_equal; field.
Defined.

(** Label 2 is not in a key that only lists label 1: it is named
    "Unknown" and dropped from the labels of interest. *)
Lemma absent_label_excluded_witness :
  ~ In 2 (map Index key_with_label_1) /\
  get_label_name 2 key_with_label_1 = "Unknown"%string /\
  ~ In 2 (remove_unknown_labels [1; 2] key_with_label_1).
Proof.
  assert (H : ~ In 2 (map Index key_with_label_1)) by (simpl; lia).
  split; [exact H|].
  destruct (absent_label_excluded 1 1 1 one_observer_three_templates [1; 2]
              key_with_label_1 (1, 1, 1)%R 2 H) as [Hname [Hout _]].
  split; [exact Hname|exact Hout].
Defined.

(** ** Further observations *)

Lemma stats_loop_extra_name (L : labels5) (label_nos : list Z)
  (names : list string) :
  forall (k : nat) (st : stat_maps * stat_maps),
    (k <= n_obs L < k + length names)%nat ->
    stats_loop L label_nos (combine (seq k (length names)) names) st
    = Raise "IndexError".
Proof.
  induction names as [|nm names IH]; intros k st Hk; simpl in Hk; [lia|].
  cbn [length seq combine stats_loop].
  destruct (Nat.ltb_spec k (n_obs L)) as [Hlt|Hge]; [|reflexivity].
  apply IH. lia.
Qed.

(** When the list of observer names is longer than the first axis of the
    label array, as it is in [main] after an observer directory without
    images, [label_stats_maps] stops with an IndexError. *)
Lemma label_stats_maps_extra_name (L : labels5) (label_nos : list Z)
  (names : list string) :
  (n_obs L < length names)%nat ->
  label_stats_maps L label_nos names = Raise "IndexError".
Proof.
  intros H. unfold label_stats_maps, enumerate.
  rewrite stats_loop_extra_name by lia. reflexivity.
Qed.

Lemma sqrt_25 : sqrt 25 = 5%R.
Proof.
  replace 25%R with (5 * 5)%R by lra. apply sqrt_square. lra.
Qed.

(** Two 2x2x2 cubes with three empty voxels between them along x are at
    boundary distance 5: the distance runs between voxel centres, from the
    far face of one cube to the near face of the other. *)
Lemma two_cubes_gap_of_three :
  res_haus (similarity 9 4 4 (cube2 (1, 1, 1)) (cube2 (6, 1, 1))
              (spacing_of_Z (1, 1, 1))) = Num 5.
Proof.
  rewrite similarity_nonempty by (vm_compute; reflexivity).
  unfold res_haus; cbn [fst snd]. rewrite hausdorff_distance_Z.
  replace (hausdorff_sq 9 4 4 (cube2 (1, 1, 1)) (cube2 (6, 1, 1)) (1, 1, 1))
    with (Some 25) by (vm_compute; reflexivity).
  now rewrite sqrt_25.
Qed.

(** * Further properties of the code *)

(** ** Degenerate comparisons *)

Section Degenerate.

Variables nx ny nz : nat.

Lemma np_sum_and_empty_l (A B : mask) :
  empty_mask nx ny nz A -> np_sum nx ny nz (logical_and A B) = 0.
Proof.
  intros H. apply np_sum_zero. intros c Hc. unfold logical_and.
  now rewrite (H c Hc).
Qed.

(** X1. When exactly one of the two masks is empty, [similarity] gives
    overlap 0 and boundary distance NaN (the overlap is defined, the
    distance is not), together with the two voxel counts. *)
Theorem similarity_one_empty (A B : mask) (vox : spacing) :
  empty_mask nx ny nz A \/ empty_mask nx ny nz B ->
  ~ (empty_mask nx ny nz A /\ empty_mask nx ny nz B) ->
  similarity nx ny nz A B vox
  = (Num 0, NaN, np_sum nx ny nz A, np_sum nx ny nz B).
Proof.
  intros Hone Hboth.
  pose proof (np_sum_nonneg nx ny nz A) as HA.
  pose proof (np_sum_nonneg nx ny nz B) as HB.
  assert (Hpos : 0 < np_sum nx ny nz A + np_sum nx ny nz B).
  { destruct (Z.eq_dec (np_sum nx ny nz A + np_sum nx ny nz B) 0) as [E|E]; [|lia].
    exfalso. apply Hboth. split; apply np_sum_zero; lia. }
  rewrite similarity_nonempty by exact Hpos.
  assert (Hand : np_sum nx ny nz (logical_and A B) = 0).
  { destruct Hone as [H|H].
    - now apply np_sum_and_empty_l.
    - rewrite np_sum_and_comm. now apply np_sum_and_empty_l. }
  rewrite Hand.
  replace (2 * 0 / IZR (np_sum nx ny nz A + np_sum nx ny nz B))%R with 0%R
    by (unfold Rdiv; ring).
  rewrite hausdorff_nan; [reflexivity|].
  destruct Hone as [H|H]; [left|right];
    apply surface_nil_of_empty; apply np_sum_zero; exact H.
Qed.

(** X2. The boundary distance computed by [hausdorff_distance] is NaN
    exactly when one of the two masks is empty: a nonempty mask always has
    surface voxels, even when it fills the whole array. *)
Theorem hausdorff_nan_iff_empty (A B : mask) (vox : spacing) :
  hausdorff_distance nx ny nz A B vox = NaN <->
  empty_mask nx ny nz A \/ empty_mask nx ny nz B.
Proof.
  split.
  - intros H.
    destruct (Z.eq_dec (np_sum nx ny nz A) 0) as [EA|EA];
      [left; now apply np_sum_zero|].
    destruct (Z.eq_dec (np_sum nx ny nz B) 0) as [EB|EB];
      [right; now apply np_sum_zero|].
    exfalso.
    pose proof (np_sum_nonneg nx ny nz A). pose proof (np_sum_nonneg nx ny nz B).
    destruct (hausdorff_directed nx ny nz A B vox) as [h [Hh _]];
      try (apply surface_nonempty; lia).
    congruence.
  - intros H. apply hausdorff_nan.
    destruct H as [H|H]; [left|right];
      apply surface_nil_of_empty; apply np_sum_zero; exact H.
Qed.

(** X4. Taking the surface twice changes nothing: a surface has no
    interior, so its own erosion is empty. *)
Theorem surface_voxels_idempotent (x : mask) (c : voxel) :
  surface_voxels nx ny nz (surface_voxels nx ny nz x) c
  = surface_voxels nx ny nz x c.
Proof.
  rewrite (surface_voxels_diff nx ny nz (surface_voxels nx ny nz x)).
  destruct (binary_erosion nx ny nz (surface_voxels nx ny nz x) c) eqn:He;
    [|now rewrite andb_true_r].
  exfalso.
  assert (Hx : binary_erosion nx ny nz x c = true).
  { apply binary_erosion_spec. apply binary_erosion_spec in He.
    intros dx dy dz Hdx Hdy Hdz. destruct (He dx dy dz Hdx Hdy Hdz) as [Hg Hs].
    split; [exact Hg|]. now apply surface_subset in Hs. }
  apply binary_erosion_subset in He.
  rewrite surface_voxels_diff, Hx, andb_false_r in He. discriminate.
Qed.

Lemma border_voxel_on_surface (x : mask) (c : voxel) :
  in_grid nx ny nz c = true -> x c = true -> on_border nx ny nz c ->
  surface_voxels nx ny nz x c = true.
Proof.
  intros Hg Hx Hb. rewrite surface_voxels_diff, Hx. simpl.
  destruct (binary_erosion nx ny nz x c) eqn:He; [|reflexivity].
  exfalso. apply binary_erosion_spec in He.
  assert (Hout : forall dx dy dz, -1 <= dx <= 1 -> -1 <= dy <= 1 -> -1 <= dz <= 1 ->
            in_grid nx ny nz (vx c + dx, vy c + dy, vz c + dz) = true)
    by (intros dx dy dz H1 H2 H3; now destruct (He dx dy dz H1 H2 H3)).
  unfold in_grid, vx, vy, vz in Hout. cbn [fst snd] in Hout.
  destruct c as [[cx cy] cz]. unfold on_border, vx, vy, vz in Hb. cbn [fst snd] in *.
  destruct Hb as [H|[H|[H|[H|[H|H]]]]].
  - specialize (Hout (-1) 0 0). rewrite !andb_true_iff in Hout. lia.
  - specialize (Hout 1 0 0). rewrite !andb_true_iff in Hout. lia.
  - specialize (Hout 0 (-1) 0). rewrite !andb_true_iff in Hout. lia.
  - specialize (Hout 0 1 0). rewrite !andb_true_iff in Hout. lia.
  - specialize (Hout 0 0 (-1)). rewrite !andb_true_iff in Hout. lia.
  - specialize (Hout 0 0 1). rewrite !andb_true_iff in Hout. lia.
Qed.

(** X5. Every voxel of the mask that lies on the border of the array is a
    surface voxel: outside the array counts as background. *)
Theorem border_voxels_are_surface (x : mask) (c : voxel) :
  in_grid nx ny nz c = true -> x c = true -> on_border nx ny nz c ->
  surface_voxels nx ny nz x c = true.
Proof.
  intros Hg Hx Hb. now apply border_voxel_on_surface.
Qed.

End Degenerate.

Section SurfaceOfFullMask.

Variables nx ny nz : nat.

(** X6. For the mask that fills the whole array the surface is exactly the
    border layer of the array; it is not empty. *)
Theorem full_mask_surface_is_border (x : mask) (c : voxel) :
  (forall v, in_grid nx ny nz v = true -> x v = true) ->
  in_grid nx ny nz c = true ->
  (surface_voxels nx ny nz x c = true <-> on_border nx ny nz c).
Proof.
  intros Hfull Hg. split.
  - intros Hs. rewrite surface_voxels_diff, (Hfull c Hg) in Hs. simpl in Hs.
    apply negb_true_iff in Hs.
    destruct c as [[cx cy] cz].
    unfold on_border, vx, vy, vz. cbn [fst snd].
    unfold in_grid, vx, vy, vz in Hg. cbn [fst snd] in Hg.
    rewrite !andb_true_iff, !Z.leb_le, !Z.ltb_lt in Hg.
    destruct (Z.eq_dec cx 0); [tauto|].
    destruct (Z.eq_dec cx (Z.of_nat nx - 1)); [tauto|].
    destruct (Z.eq_dec cy 0); [tauto|].
    destruct (Z.eq_dec cy (Z.of_nat ny - 1)); [tauto|].
    destruct (Z.eq_dec cz 0); [tauto|].
    destruct (Z.eq_dec cz (Z.of_nat nz - 1)); [tauto|].
    exfalso.
    assert (He : binary_erosion nx ny nz x (cx, cy, cz) = true).
    { apply binary_erosion_spec. intros dx dy dz Hdx Hdy Hdz.
      unfold vx, vy, vz. cbn [fst snd].
      assert (Hin : in_grid nx ny nz (cx + dx, cy + dy, cz + dz) = true).
      { unfold in_grid, vx, vy, vz. cbn [fst snd].
        rewrite !andb_true_iff, !Z.leb_le, !Z.ltb_lt. lia. }
      split; [exact Hin|apply Hfull; exact Hin]. }
    congruence.
  - intros Hb. apply border_voxel_on_surface; auto.
Qed.

End SurfaceOfFullMask.

(** ** When the boundary distance is zero *)

Lemma physical_distance_zero (vox : spacing) (a b : voxel) :
  fst (fst vox) <> 0%R -> snd (fst vox) <> 0%R -> snd vox <> 0%R ->
  physical_distance vox a b = 0%R -> a = b.
Proof.
  intros Hx Hy Hz H. unfold physical_distance in H.
  pose proof (pow2_ge_0 (IZR (vx a - vx b) * fst (fst vox))) as H1.
  pose proof (pow2_ge_0 (IZR (vy a - vy b) * snd (fst vox))) as H2.
  pose proof (pow2_ge_0 (IZR (vz a - vz b) * snd vox)) as H3.
  apply sqrt_eq_0 in H; [|lra].
  assert (E1 : ((IZR (vx a - vx b) * fst (fst vox)) ^ 2 = 0)%R) by lra.
  assert (E2 : ((IZR (vy a - vy b) * snd (fst vox)) ^ 2 = 0)%R) by lra.
  assert (E3 : ((IZR (vz a - vz b) * snd vox) ^ 2 = 0)%R) by lra.
  rewrite <- Rsqr_pow2 in E1, E2, E3.
  apply Rsqr_eq_0 in E1, E2, E3.
  apply Rmult_integral in E1, E2, E3.
  destruct E1 as [E1|E1]; [|contradiction].
  destruct E2 as [E2|E2]; [|contradiction].
  destruct E3 as [E3|E3]; [|contradiction].
  apply eq_IZR in E1, E2, E3.
  destruct a as [[ax ay] az], b as [[bx b_y] bz].
  unfold vx, vy, vz in *. cbn [fst snd] in *.
  f_equal; [f_equal|]; lia.
Qed.

Section ZeroDistance.

Variables nx ny nz : nat.

Lemma min_distance_exists (B : mask) (vox : spacing) (a : voxel) :
  (exists b, surface_set nx ny nz B b) ->
  exists m, min_distance_to vox (surface_set nx ny nz B) a m.
Proof.
  intros [b Hb]. apply surface_set_nonzero in Hb.
  destruct (nonzero nx ny nz (surface_voxels nx ny nz B)) as [|b0 tB] eqn:EB;
    [contradiction|].
  destruct (np_min_is_min_distance vox _ b0 tB a EB) as [[b' [Hb' Hd]] Hle].
  eexists. split.
  - exists b'. split; [apply surface_set_nonzero; exact Hb'|exact Hd].
  - intros b'' Hb''. apply Hle. apply surface_set_nonzero. exact Hb''.
Qed.

(** X3. With voxel dimensions that are not zero, the boundary distance
    from A to B is never negative, and it is 0 exactly when both masks
    have surface voxels and every surface voxel of A is a surface voxel
    of B. *)
Theorem hausdorff_zero_iff_surface_included (A B : mask) (vox : spacing) :
  fst (fst vox) <> 0%R -> snd (fst vox) <> 0%R -> snd vox <> 0%R ->
  (forall h, hausdorff_distance nx ny nz A B vox = Num h -> (0 <= h)%R) /\
  (hausdorff_distance nx ny nz A B vox = Num 0 <->
   (exists a, surface_set nx ny nz A a) /\
   (exists b, surface_set nx ny nz B b) /\
   (forall a, surface_set nx ny nz A a -> surface_set nx ny nz B a)).
Proof.
  intros Hx Hy Hz.
  assert (Hdef : forall h, hausdorff_distance nx ny nz A B vox = Num h ->
            (exists a, surface_set nx ny nz A a) /\
            (exists b, surface_set nx ny nz B b) /\
            directed_hausdorff vox (surface_set nx ny nz A) (surface_set nx ny nz B) h).
  { intros h Hh.
    destruct (nonzero nx ny nz (surface_voxels nx ny nz A)) as [|a0 tA] eqn:EA.
    { rewrite hausdorff_nan in Hh by (now left). discriminate. }
    destruct (nonzero nx ny nz (surface_voxels nx ny nz B)) as [|b0 tB] eqn:EB.
    { rewrite hausdorff_nan in Hh by (now right). discriminate. }
    destruct (hausdorff_directed nx ny nz A B vox) as [h' [Hh' Hd]];
      try congruence.
    assert (h' = h) by congruence. subst h'.
    split; [exists a0; apply surface_set_nonzero; rewrite EA; now left|].
    split; [exists b0; apply surface_set_nonzero; rewrite EB; now left|exact Hd]. }
  split.
  - intros h Hh. destruct (Hdef h Hh) as [_ [_ [[a [_ [[b [_ Hd]] _]]] _]]].
    rewrite <- Hd. apply physical_distance_nonneg.
  - split.
    + intros H0. destruct (Hdef 0%R H0) as [HA [HB [_ Hmax]]].
      split; [exact HA|]. split; [exact HB|].
      intros a Ha. destruct (min_distance_exists B vox a HB) as [m Hm].
      pose proof (Hmax a m Ha Hm) as Hle.
      destruct Hm as [[b [Hb Hd]] _].
      pose proof (physical_distance_nonneg vox a b) as Hge.
      assert (E : physical_distance vox a b = 0%R) by lra.
      apply physical_distance_zero in E; auto. now subst b.
    + intros [HA [HB Hsub]].
      destruct (hausdorff_directed nx ny nz A B vox) as [h [Hh Hd]].
      * destruct HA as [a Ha]. apply surface_set_nonzero in Ha.
        intros E. rewrite E in Ha. contradiction.
      * destruct HB as [b Hb]. apply surface_set_nonzero in Hb.
        intros E. rewrite E in Hb. contradiction.
      * rewrite Hh. f_equal.
        destruct Hd as [[a [Ha [[b [Hb Hab]] Hmin]]] _].
        apply Rle_antisym.
        -- rewrite <- (physical_distance_self vox a). apply Hmin. now apply Hsub.
        -- rewrite <- Hab. apply physical_distance_nonneg.
Qed.

End ZeroDistance.

(** ** The pairwise comparison loops *)

Lemma outcome_map_continue {A B : Type} (f : A -> outcome B) (g : A -> B)
  (l : list A) :
  (forall a, In a l -> f a = Continue (g a)) ->
  outcome_map f l = Continue (map g l).
Proof.
  induction l as [|a l IH]; intros H; simpl; [reflexivity|].
  rewrite (H a) by (now left). rewrite IH by (intros b Hb; apply H; now right).
  reflexivity.
Qed.

Lemma outcome_map_raise_first {A B : Type} (f : A -> outcome B) (a : A)
  (l : list A) (e : string) :
  f a = Raise e -> outcome_map f (a :: l) = Raise e.
Proof.
  intros H. simpl. now rewrite H.
Qed.

Lemma seq_cons (n : nat) : (0 < n)%nat -> seq 0 n = 0%nat :: seq 1 (n - 1).
Proof.
  intros H. destruct n as [|n]; [lia|]. simpl. now rewrite Nat.sub_0_r.
Qed.

Lemma nth_map_seq {T : Type} (f : nat -> T) (n i : nat) (d : T) :
  (i < n)%nat -> nth i (map f (seq 0 n)) d = f i.
Proof.
  intros H. rewrite (nth_indep _ d (f 0%nat)) by (now rewrite length_map, length_seq).
  rewrite map_nth. f_equal. now rewrite seq_nth.
Qed.

Section PairwiseFacts.

Variables nx ny nz : nat.

(** X7. The pool of the pairwise comparisons has [cpu_count - 2]
    processes.  With at least 3 CPUs both comparison functions return all
    their results, in order; with 2 CPUs or fewer they raise ValueError as
    soon as there is one observer and one template to compare. *)
Theorem metrics_pool_needs_three_cpus (cpu_count : Z) (L : labels5)
  (label_no : Z) (vox : spacing) :
  (3 <= cpu_count ->
   intra_observer_metrics_pool nx ny nz cpu_count L label_no vox
   = Continue (intra_observer_metrics nx ny nz L label_no vox) /\
   inter_observer_metrics_pool nx ny nz cpu_count L label_no vox
   = Continue (inter_observer_metrics nx ny nz L label_no vox)) /\
  (cpu_count <= 2 -> (0 < n_obs L)%nat -> (0 < n_tmp L)%nat ->
   intra_observer_metrics_pool nx ny nz cpu_count L label_no vox
   = Raise "ValueError" /\
   inter_observer_metrics_pool nx ny nz cpu_count L label_no vox
   = Raise "ValueError").
Proof.
  split.
  - intros Hcpu.
    assert (Hpool : (cpu_count - 2 <? 1) = false) by (apply Z.ltb_ge; lia).
    unfold intra_observer_metrics_pool, inter_observer_metrics_pool,
      intra_observer_metrics, inter_observer_metrics.
    split; apply outcome_map_continue; intros i _;
      apply outcome_map_continue; intros j _;
      unfold pool_starmap; rewrite Hpool, map_map; reflexivity.
  - intros Hcpu Hobs Htmp.
    assert (Hpool : (cpu_count - 2 <? 1) = true) by (apply Z.ltb_lt; lia).
    unfold intra_observer_metrics_pool, inter_observer_metrics_pool.
    rewrite (seq_cons (n_obs L) Hobs), (seq_cons (n_tmp L) Htmp).
    split; apply outcome_map_raise_first; apply outcome_map_raise_first;
      unfold pool_starmap; rewrite Hpool; reflexivity.
Qed.

Lemma intra_entry (L : labels5) (label_no : Z) (vox : spacing) (obs ta tb : nat) :
  (obs < n_obs L)%nat -> (ta < n_tmp L)%nat -> (tb < n_tmp L)%nat ->
  metrics_entry (intra_observer_metrics nx ny nz L label_no vox) obs ta tb
  = similarity nx ny nz (label_mask L label_no obs ta)
      (label_mask L label_no obs tb) vox.
Proof.
  intros Ho Ha Hb. unfold metrics_entry, intra_observer_metrics.
  rewrite (nth_map_seq _ _ _ _ Ho), (nth_map_seq _ _ _ _ Ha), (nth_map_seq _ _ _ _ Hb).
  reflexivity.
Qed.

Lemma inter_entry (L : labels5) (label_no : Z) (vox : spacing) (tmp oa ob : nat) :
  (tmp < n_tmp L)%nat -> (oa < n_obs L)%nat -> (ob < n_obs L)%nat ->
  metrics_entry (inter_observer_metrics nx ny nz L label_no vox) tmp oa ob
  = similarity nx ny nz (label_mask L label_no oa tmp)
      (label_mask L label_no ob tmp) vox.
Proof.
  intros Ht Ha Hb. unfold metrics_entry, inter_observer_metrics.
  rewrite (nth_map_seq _ _ _ _ Ht), (nth_map_seq _ _ _ _ Ha), (nth_map_seq _ _ _ _ Hb).
  reflexivity.
Qed.

Lemma similarity_counts (A B : mask) (vox : spacing) :
  res_na (similarity nx ny nz A B vox) = np_sum nx ny nz A /\
  res_nb (similarity nx ny nz A B vox) = np_sum nx ny nz B.
Proof.
  unfold similarity.
  destruct ((0 <? np_sum nx ny nz A) || (0 <? np_sum nx ny nz B));
    split; reflexivity.
Qed.

(** X8. In the intra-observer results of one label, the entry for
    templates (ta, tb) and the entry for (tb, ta) carry the same overlap
    and swapped voxel counts; and the self-comparison of template t of an
    observer is the same result in the intra-observer and in the
    inter-observer tensor. *)
Theorem metrics_tensors_consistent (L : labels5) (label_no : Z) (vox : spacing)
  (obs ta tb : nat) :
  (obs < n_obs L)%nat -> (ta < n_tmp L)%nat -> (tb < n_tmp L)%nat ->
  let intra := intra_observer_metrics nx ny nz L label_no vox in
  let inter := inter_observer_metrics nx ny nz L label_no vox in
  res_dice (metrics_entry intra obs ta tb) = res_dice (metrics_entry intra obs tb ta) /\
  res_na (metrics_entry intra obs ta tb) = res_nb (metrics_entry intra obs tb ta) /\
  res_nb (metrics_entry intra obs ta tb) = res_na (metrics_entry intra obs tb ta) /\
  metrics_entry intra obs ta ta = metrics_entry inter ta obs obs.
Proof.
  intros Ho Ha Hb intra inter. unfold intra, inter.
  rewrite !intra_entry, inter_entry by assumption.
  split; [apply similarity_dice_sym|].
  pose proof (similarity_counts (label_mask L label_no obs ta)
                (label_mask L label_no obs tb) vox) as [H1 H2].
  pose proof (similarity_counts (label_mask L label_no obs tb)
                (label_mask L label_no obs ta) vox) as [H3 H4].
  repeat split; congruence.
Qed.

End PairwiseFacts.

(** ** The rows of the two reports *)

Lemma length_enumerate {T : Type} (l : list T) : length (enumerate l) = length l.
Proof.
  unfold enumerate. rewrite length_combine, length_seq. apply Nat.min_id.
Qed.

Lemma length_flat_map_const {A B : Type} (f : A -> list B) (l : list A) (n : nat) :
  (forall a, In a l -> length (f a) = n) ->
  length (flat_map f l) = (length l * n)%nat.
Proof.
  induction l as [|a l IH]; intros H; simpl; [reflexivity|].
  rewrite length_app, (H a) by (now left).
  rewrite IH by (intros b Hb; apply H; now right). reflexivity.
Qed.

Lemma save_metrics_length (metrics : list (list (list (list similarity_result))))
  (label_nos : list Z) (key : label_key) (a b c : nat) :
  (forall m, In m metrics ->
     length m = a /\
     forall m', In m' m -> length m' = b /\ forall m'', In m'' m' -> length m'' = c) ->
  length (save_metrics metrics label_nos key) = (length metrics * (a * (b * c)))%nat.
Proof.
  intros H. unfold save_metrics.
  rewrite (length_flat_map_const _ _ (a * (b * c))), length_enumerate; [reflexivity|].
  intros [idx m] Hm. apply in_enumerate_snd in Hm. destruct (H m Hm) as [Ha Hm'].
  rewrite (length_flat_map_const _ _ (b * c)), length_enumerate, Ha; [reflexivity|].
  intros [i m'] Hi. apply in_enumerate_snd in Hi. destruct (Hm' m' Hi) as [Hb Hm''].
  rewrite (length_flat_map_const _ _ c), length_enumerate, Hb; [reflexivity|].
  intros [j m''] Hj. apply in_enumerate_snd in Hj.
  rewrite length_map, length_enumerate. now apply Hm''.
Qed.

(** X9. The reports written by [main] are dense: with n labels left after
    the unknown ones are removed, the intra-observer report has
    n * nobs * ntmp * ntmp rows and the inter-observer report
    n * ntmp * nobs * nobs rows (self-comparisons included); every row
    carries the name the key gives to its label number, and that name is
    never "Unknown". *)
Theorem report_rows_dense (nx ny nz : nat) (L : labels5) (label_nos0 : list Z)
  (key : label_key) (vox : spacing) :
  let '(label_nos, intra, inter) := main_analysis nx ny nz L label_nos0 key vox in
  length intra = (length label_nos * (n_obs L * (n_tmp L * n_tmp L)))%nat /\
  length inter = (length label_nos * (n_tmp L * (n_obs L * n_obs L)))%nat /\
  (forall row, In row intra \/ In row inter ->
     row_label_name row = get_label_name (row_label_no row) key /\
     row_label_name row <> "Unknown"%string).
Proof.
  unfold main_analysis.
  split; [|split].
  - rewrite (save_metrics_length _ _ _ (n_obs L) (n_tmp L) (n_tmp L)), length_map;
      [reflexivity|].
    intros m Hm. apply in_map_iff in Hm. destruct Hm as [label_no [<- _]].
    unfold intra_observer_metrics. split; [now rewrite length_map, length_seq|].
    intros m' Hm'. apply in_map_iff in Hm'. destruct Hm' as [obs [<- _]].
    split; [now rewrite length_map, length_seq|].
    intros m'' Hm''. apply in_map_iff in Hm''. destruct Hm'' as [ta [<- _]].
    now rewrite length_map, length_seq.
  - rewrite (save_metrics_length _ _ _ (n_tmp L) (n_obs L) (n_obs L)), length_map;
      [reflexivity|].
    intros m Hm. apply in_map_iff in Hm. destruct Hm as [label_no [<- _]].
    unfold inter_observer_metrics. split; [now rewrite length_map, length_seq|].
    intros m' Hm'. apply in_map_iff in Hm'. destruct Hm' as [tmp [<- _]].
    split; [now rewrite length_map, length_seq|].
    intros m'' Hm''. apply in_map_iff in Hm''. destruct Hm'' as [oa [<- _]].
    now rewrite length_map, length_seq.
  - intros row Hrow.
    assert (H : In (row_label_no row) (remove_unknown_labels label_nos0 key) /\
                row_label_name row = get_label_name (row_label_no row) key).
    { destruct Hrow as [Hrow|Hrow]; apply save_metrics_label in Hrow;
        try (now rewrite length_map); exact Hrow. }
    destruct H as [Hin Hname]. split; [exact Hname|].
    rewrite Hname. apply remove_unknown_labels_in in Hin. tauto.
Qed.

(** X10. Removing the unknown labels keeps the known ones in their order
    and with their repetitions (it is a filter), so it never lengthens
    the list, and doing it twice changes nothing. *)
Theorem remove_unknown_labels_is_filter (label_nos : list Z) (key : label_key) :
  let known := fun l => negb (String.eqb (get_label_name l key) "Unknown") in
  remove_unknown_labels label_nos key = filter known label_nos /\
  (length (remove_unknown_labels label_nos key) <= length label_nos)%nat /\
  remove_unknown_labels (remove_unknown_labels label_nos key) key
  = remove_unknown_labels label_nos key.
Proof.
  intros known. rewrite !remove_unknown_labels_filter. fold known.
  split; [reflexivity|]. split.
  - apply filter_length_le.
  - induction label_nos as [|l ls IH]; simpl; [reflexivity|].
    destruct (known l) eqn:Hl; simpl; [rewrite Hl, IH|]; auto.
Qed.

(** X11. The name returned for a label number is either "Unknown" or the
    Name of a row of the key whose Index is that number: a name is never
    taken from a row with another Index. *)
Theorem get_label_name_from_key (label_idx : Z) (key : label_key) :
  get_label_name label_idx key = "Unknown"%string \/
  exists row, In row key /\ Index row = label_idx /\
              get_label_name label_idx key = Name row.
Proof.
  unfold get_label_name.
  assert (H : forall init,
            fold_left (fun label_name row =>
                         if label_idx =? Index row then Name row else label_name)
                      key init = init \/
            exists row, In row key /\ Index row = label_idx /\
              fold_left (fun label_name row =>
                           if label_idx =? Index row then Name row else label_name)
                        key init = Name row).
  { induction key as [|r key IH]; intros init; simpl; [now left|].
    destruct (IH (if label_idx =? Index r then Name r else init)) as [E|[row [Hin [Hi E]]]].
    - rewrite E. destruct (Z.eqb_spec label_idx (Index r)) as [Heq|Hne].
      + right. exists r. split; [now left|]. split; [now symmetry|reflexivity].
      + now left.
    - right. exists row. split; [now right|]. split; assumption. }
  apply H.
Qed.

(** ** Bounds on the mean and variance maps *)

Lemma label_stats_maps_run (L : labels5) (label_nos : list Z) (names : list string) :
  length names = n_obs L ->
  exists label_means label_vars,
    label_stats_maps L label_nos names
    = Continue (label_means, label_vars,
                fun lc c => np_mean_float
                              (map (fun oc => label_means lc oc c) (seq 0 (n_obs L)))) /\
    forall lc oc, (lc < length label_nos)%nat -> (oc < n_obs L)%nat ->
      label_means lc oc = mean_over_templates L oc (nth lc label_nos 0) /\
      label_vars lc oc = var_over_templates L oc (nth lc label_nos 0).
Proof.
  intros Hlen. unfold label_stats_maps, enumerate.
  destruct (stats_loop_from L label_nos names 0 (np_zeros, np_zeros))
    as [[label_means label_vars] [Hrun Hst]]; [simpl; lia|].
  rewrite Hrun. exists label_means, label_vars. split; [reflexivity|].
  intros lc oc Hlc Hoc. destruct (Hst lc oc) as [Hin _].
  apply Hin. split; [simpl; lia|exact Hlc].
Qed.

Lemma templates_with_label_le (L : labels5) (oc : nat) (label_no : Z) (c : voxel) :
  (templates_with_label L oc label_no c <= n_tmp L)%nat.
Proof.
  unfold templates_with_label.
  rewrite <- (length_seq (n_tmp L) 0) at 2. apply filter_length_le.
Qed.

Lemma fraction_bounds (k n : nat) :
  (k <= n)%nat -> (0 < n)%nat -> (0 <= INR k / INR n <= 1)%R.
Proof.
  intros Hk Hn.
  assert (Hn' : (0 < INR n)%R) by (apply lt_0_INR; exact Hn).
  assert (Hk' : (0 <= INR k)%R) by apply pos_INR.
  assert (Hkn : (INR k <= INR n)%R) by (apply le_INR; exact Hk).
  split.
  - apply Rmult_le_pos; [exact Hk'|]. left. now apply Rinv_0_lt_compat.
  - apply (Rmult_le_reg_r (INR n)); [exact Hn'|].
    unfold Rdiv. rewrite Rmult_assoc, Rinv_l by lra. lra.
Qed.

Lemma Rsum_bounds (f : nat -> R) (l : list nat) :
  (forall i, In i l -> (0 <= f i <= 1)%R) ->
  (0 <= Rsum (map f l) <= INR (length l))%R.
Proof.
  induction l as [|i l IH]; intros H.
  - simpl. lra.
  - cbn [map Rsum fold_right length]. fold (Rsum (map f l)). rewrite S_INR.
    pose proof (H i (or_introl eq_refl)).
    assert (0 <= Rsum (map f l) <= INR (length l))%R
      by (apply IH; intros j Hj; apply H; now right).
    lra.
Qed.

(** X12. Every value of a mean map lies in [0,1], every value of a
    variance map in [0,1/4], and every value of the probabilistic atlas
    in [0,1], whatever the label volumes (one name per observer, at least
    one observer and one template). *)
Theorem stat_maps_bounds (L : labels5) (label_nos : list Z) (names : list string) :
  length names = n_obs L -> (0 < n_obs L)%nat -> (0 < n_tmp L)%nat ->
  exists label_means label_vars p,
    label_stats_maps L label_nos names = Continue (label_means, label_vars, p) /\
    forall lc c, (lc < length label_nos)%nat ->
      (forall oc, (oc < n_obs L)%nat ->
         exists m v, label_means lc oc c = Num m /\ (0 <= m <= 1)%R /\
                     label_vars lc oc c = Num v /\ (0 <= v <= 1 / 4)%R) /\
      exists q, p lc c = Num q /\ (0 <= q <= 1)%R.
Proof.
  intros Hlen Hobs Htmp.
  destruct (label_stats_maps_run L label_nos names Hlen)
    as [label_means [label_vars [Hrun Hmaps]]].
  eexists label_means, label_vars, _. split; [exact Hrun|].
  intros lc c Hlc. cbv beta.
  set (label_no := nth lc label_nos 0).
  set (k := fun oc => templates_with_label L oc label_no c).
  assert (Hfrac : forall oc, (0 <= INR (k oc) / INR (n_tmp L) <= 1)%R).
  { intros oc. apply fraction_bounds; [apply templates_with_label_le|exact Htmp]. }
  assert (Hmean : forall oc, (oc < n_obs L)%nat ->
            label_means lc oc c = Num (INR (k oc) / INR (n_tmp L))).
  { intros oc Hoc. destruct (Hmaps lc oc Hlc Hoc) as [Hm _]. rewrite Hm.
    unfold mean_over_templates. now apply np_mean_templates. }
  split.
  - intros oc Hoc. destruct (Hmaps lc oc Hlc Hoc) as [_ Hv].
    exists (INR (k oc) / INR (n_tmp L))%R,
           (INR (k oc) / INR (n_tmp L) * (1 - INR (k oc) / INR (n_tmp L)))%R.
    split; [now apply Hmean|]. split; [apply Hfrac|]. split.
    + rewrite Hv. unfold var_over_templates.
      rewrite np_var_templates, population_variance_templates by exact Htmp.
      reflexivity.
    + pose proof (Hfrac oc) as Hp.
      set (r := (INR (k oc) / INR (n_tmp L))%R) in *.
      pose proof (pow2_ge_0 (r - 1 / 2)) as Hsq.
      split; nra.
  - assert (Hsum : float_sum (map (fun oc => label_means lc oc c) (seq 0 (n_obs L)))
                   = Num (Rsum (map (fun oc => INR (k oc) / INR (n_tmp L))%R
                                  (seq 0 (n_obs L))))).
    { apply float_sum_nums. intros oc Hoc. apply in_seq in Hoc. apply Hmean. lia. }
    unfold np_mean_float.
    destruct (map (fun oc => label_means lc oc c) (seq 0 (n_obs L)))
      as [|y ys] eqn:E.
    { exfalso. apply (f_equal (@length npfloat)) in E.
      rewrite length_map, length_seq in E. simpl in E. lia. }
    rewrite Hsum, <- E, length_map, length_seq.
    eexists. split; [reflexivity|].
    pose proof (Rsum_bounds (fun oc => INR (k oc) / INR (n_tmp L))%R (seq 0 (n_obs L))
                  (fun i _ => Hfrac i)) as Hb.
    rewrite length_seq in Hb.
    assert (Hn : (0 < INR (n_obs L))%R) by (apply lt_0_INR; exact Hobs).
    split.
    + apply Rmult_le_pos; [lra|]. left. now apply Rinv_0_lt_compat.
    + apply (Rmult_le_reg_r (INR (n_obs L))); [exact Hn|].
      unfold Rdiv. rewrite Rmult_assoc, Rinv_l by lra. lra.
Qed.

(** ** The mean maps of distinct labels *)






(** ** What the loading loop collects *)

Lemma load_fold_contents (dirs : list obs_entry) :
  forall st,
    let st' := fold_left load_observer dirs st in
    obs_names st' = obs_names st ++ map basename (filter isdir dirs) /\
    labels st' = labels st ++
      map (fun d => map get_data (images d))
          (filter (fun d => isdir d && (0 <? length (images d))%nat) dirs) /\
    vox_mm st' = vox_mm st ++
      flat_map (fun d => map get_zooms (images d)) (filter isdir dirs) /\
    affine_tx st' = affine_tx st ++
      flat_map (fun d => map get_affine (images d)) (filter isdir dirs) /\
    length (vox_ul st') = (length (vox_ul st) + (length (vox_mm st') - length (vox_mm st)))%nat.
Proof.
  induction dirs as [|d dirs IH]; intros st; cbn [fold_left filter].
  - cbn [map flat_map]. rewrite !app_nil_r. repeat split. lia.
  - destruct (IH (load_observer st d)) as [Hn [Hl [Hm [Ha Hu]]]].
    cbv zeta. rewrite Hn, Hl, Hm, Ha, Hu. rewrite Hm. clear IH Hn Hl Hm Ha Hu.
    unfold load_observer. destruct (isdir d) eqn:Hd;
      cbn [andb labels vox_mm vox_ul affine_tx obs_names map flat_map].
    + rewrite length_map.
      destruct (0 <? length (images d))%nat;
        cbn [map]; rewrite <- !app_assoc; repeat split;
        rewrite ?length_app, ?length_map; try lia.
    + repeat split; try lia.
Qed.

Lemma filter_length_lt {T : Type} (p q : T -> bool) (l : list T) (x : T) :
  (forall y, q y = true -> p y = true) ->
  In x l -> p x = true -> q x = false ->
  (length (filter q l) < length (filter p l))%nat.
Proof.
  intros Hqp. induction l as [|y l IH]; intros Hin Hp Hq; [contradiction|].
  assert (Hle : (length (filter q l) <= length (filter p l))%nat).
  { clear -Hqp. induction l as [|z l IH]; simpl; [lia|].
    specialize (Hqp z). destruct (q z), (p z); simpl; lia. }
  simpl. destruct Hin as [->|Hin].
  - rewrite Hp, Hq. simpl. lia.
  - specialize (IH Hin Hp Hq). specialize (Hqp y).
    destruct (q y), (p y); simpl; lia.
Qed.

Lemma load_loop_fields (dirs : list obs_entry) :
  let st := load_loop dirs in
  obs_names st = map basename (filter isdir dirs) /\
  labels st = map (fun d => map get_data (images d))
                (filter (fun d => isdir d && (0 <? length (images d))%nat) dirs) /\
  vox_mm st = flat_map (fun d => map get_zooms (images d)) (filter isdir dirs) /\
  affine_tx st = flat_map (fun d => map get_affine (images d)) (filter isdir dirs) /\
  length (vox_ul st) = length (vox_mm st) /\
  (forall obs_labels, In obs_labels (labels st) -> obs_labels <> []) /\
  (length (labels st) <= length (obs_names st))%nat.
Proof.
  intros st. unfold st, load_loop.
  destruct (load_fold_contents dirs load_init) as [Hn [Hl [Hm [Ha Hu]]]].
  cbv zeta in *. cbn [load_init obs_names labels vox_mm affine_tx vox_ul app length] in *.
  rewrite Hn, Hl, Hm, Ha, Hu. repeat split.
  - rewrite Hm. lia.
  - intros ol Hol E. apply in_map_iff in Hol. destruct Hol as [d [Hd Hin]].
    apply filter_In in Hin. destruct Hin as [_ Hin].
    apply andb_prop in Hin. destruct Hin as [_ Hlen]. apply Nat.ltb_lt in Hlen.
    rewrite E in Hd. apply (f_equal (@length _)) in Hd.
    rewrite length_map in Hd. simpl in Hd. lia.
  - rewrite !length_map.
    clear. induction dirs as [|d dirs IH]; simpl; [lia|].
    destruct (isdir d); simpl; [destruct (0 <? length (images d))%nat; simpl; lia|lia].
Qed.

(** X14. After the loading loop the list of observer names holds the name
    of every observer directory, in order, and the label list one entry,
    never empty, for every directory that has images; the lists of voxel
    dimensions, voxel volumes and transforms hold one entry per image.
    So there are never more label entries than names. *)
Theorem load_loop_contents (dirs : list obs_entry) :
  let st := load_loop dirs in
  obs_names st = map basename (filter isdir dirs) /\
  labels st = map (fun d => map get_data (images d))
                (filter (fun d => isdir d && (0 <? length (images d))%nat) dirs) /\
  vox_mm st = flat_map (fun d => map get_zooms (images d)) (filter isdir dirs) /\
  affine_tx st = flat_map (fun d => map get_affine (images d)) (filter isdir dirs) /\
  length (vox_ul st) = length (vox_mm st) /\
  (forall obs_labels, In obs_labels (labels st) -> obs_labels <> []) /\
  (length (labels st) <= length (obs_names st))%nat.
Proof.
  exact (load_loop_fields dirs).
Qed.

(** X15. When an observer directory holds no image, [label_stats_maps]
    never returns, so the probabilistic atlas is never written: if the
    loading step lets the run go on, the loop over the observer names
    stops with IndexError, because the name of the empty observer is in
    [obs_names] while the label array has no entry for it.  (The other
    observers are taken to have the same number of templates, as the
    five-dimensional label array requires.) *)
Theorem empty_observer_stops_atlas (dirs : list obs_entry) (label_nos : list Z)
  (d : obs_entry) :
  In d dirs -> isdir d = true -> images d = [] ->
  (forall d1 d2, In d1 dirs -> In d2 dirs ->
     isdir d1 = true -> isdir d2 = true -> images d1 <> [] -> images d2 <> [] ->
     length (images d1) = length (images d2)) ->
  (forall loaded, load_volumes dirs = Continue loaded ->
                  main_atlas dirs label_nos = Raise "IndexError") /\
  (forall atlas, main_atlas dirs label_nos <> Continue atlas).
Proof.
  intros Hin Hdir Himg _.
  assert (Hlt : (n_obs (np_array5 (labels (load_loop dirs)))
                 < length (obs_names (load_loop dirs)))%nat).
  { destruct (load_loop_fields dirs) as [Hn [Hl _]]. cbv zeta in Hn, Hl.
    rewrite Hn, Hl. cbn [np_array5 n_obs]. rewrite !length_map.
    apply (filter_length_lt _ _ dirs d); auto.
    - intros y Hy. apply andb_prop in Hy. tauto.
    - rewrite Hdir, Himg. reflexivity. }
  assert (Hrun : forall loaded, load_volumes dirs = Continue loaded ->
            main_atlas dirs label_nos = Raise "IndexError").
  { intros [[st v] u] Hload. unfold main_atlas. rewrite Hload.
    assert (Hst : st = load_loop dirs).
    { unfold load_volumes in Hload.
      destruct (negb (vox_any (vox_mm (load_loop dirs)))); [discriminate|].
      destruct (any_of_nonzero _) as [s|e|[|]]; try discriminate.
      now inversion Hload. }
    subst st. now apply label_stats_maps_extra_name. }
  split; [exact Hrun|].
  intros atlas Hatlas. unfold main_atlas in Hatlas.
  destruct (load_volumes dirs) as [s|e|loaded] eqn:Hload; try discriminate.
  specialize (Hrun loaded eq_refl). unfold main_atlas in Hrun.
  rewrite Hload in Hrun. destruct loaded as [[st v] u]. congruence.
Qed.

(** ** What the check of the voxel dimensions accepts *)







(** ** Lists of label numbers *)

Lemma in_py_range (a b n : Z) : In n (py_range a b) <-> a <= n < b.
Proof.
  unfold py_range. rewrite in_map_iff. split.
  - intros [i [<- Hi]]. apply in_seq in Hi. lia.
  - intros H. exists (Z.to_nat (n - a)). split; [lia|]. apply in_seq. lia.
Qed.




Section ParseRangeFacts.

Variable py_int : string -> option Z.

(** The two numbers read from one part of the list: the text before the
    first dash and the text after the last one. *)
Let first_of (part : string) : option Z :=
  py_int (hd EmptyString (py_split "-" part)).
Let last_of (part : string) : option Z :=
  py_int (last (py_split "-" part) EmptyString).

Lemma parse_part_cases (part : string) :
  (exists a b, first_of part = Some a /\ last_of part = Some b /\
               parse_part py_int part = Continue (py_range a (b + 1))) \/
  ((first_of part = None \/ last_of part = None) /\
   parse_part py_int part = Raise "ValueError").
Proof.
  unfold parse_part, first_of, last_of.
  destruct (py_int (hd EmptyString (py_split "-" part))) as [a|]; [|right; auto].
  destruct (py_int (last (py_split "-" part) EmptyString)) as [b|]; [|right; auto].
  left. now exists a, b.
Qed.

Lemma parse_range_loop_spec (parts : list string) :
  forall result,
    match parse_range_loop py_int parts result with
    | Continue r =>
        forall n, In n r <->
          In n result \/
          exists part a b, In part parts /\ first_of part = Some a /\
                           last_of part = Some b /\ a <= n <= b
    | Raise e =>
        e = "ValueError"%string /\
        exists part, In part parts /\ (first_of part = None \/ last_of part = None)
    | Exit _ => False
    end.
Proof.
  induction parts as [|part parts IH]; intros result; simpl.
  - intros n. split; [now left|]. intros [H|[part [a [b [[] _]]]]]. exact H.
  - destruct (parse_part_cases part) as [[a [b [Ha [Hb Hp]]]]|[Hnone Hp]];
      rewrite Hp.
    + specialize (IH (result ++ py_range a (b + 1))).
      destruct (parse_range_loop py_int parts (result ++ py_range a (b + 1)))
        as [s|e|r].
      * exact IH.
      * destruct IH as [He [p [Hin Hn]]]. split; [exact He|].
        exists p. split; [now right|exact Hn].
      * intros n. rewrite IH, in_app_iff, in_py_range. split.
        -- intros [[H|H]|[p [a' [b' [Hin H]]]]].
           ++ now left.
           ++ right. exists part, a, b. repeat split; auto; lia.
           ++ right. exists p, a', b'. split; [now right|exact H].
        -- intros [H|[p [a' [b' [[<-|Hin] [Ha' [Hb' Hn]]]]]]].
           ++ left. now left.
           ++ left. right. assert (a' = a) by congruence.
              assert (b' = b) by congruence. lia.
           ++ right. exists p, a', b'. auto.
    + split; [reflexivity|]. exists part. split; [now left|exact Hnone].
Qed.


Lemma parse_range_loop_parsed (parts : list string) :
  forall result r,
    parse_range_loop py_int parts result = Continue r ->
    forall p, In p parts -> first_of p <> None /\ last_of p <> None.
Proof.
  induction parts as [|q parts IH]; intros result r Hrun p Hp; [contradiction|].
  simpl in Hrun.
  destruct (parse_part_cases q) as [[a [b [Ha [Hb Hq]]]]|[_ Hq]];
    rewrite Hq in Hrun; [|discriminate].
  destruct Hp as [<-|Hp]; [split; congruence|].
  now apply (IH _ _ Hrun).
Qed.

Lemma parse_range_raises (astr part : string) :
  In part (py_split "," astr) ->
  first_of part = None \/ last_of part = None ->
  parse_range py_int astr = Raise "ValueError".
Proof.
  intros Hin Hnone. unfold parse_range.
  pose proof (parse_range_loop_spec (py_split "," astr) []) as H.
  destruct (parse_range_loop py_int (py_split "," astr) []) as [s|e|r] eqn:E.
  - contradiction.
  - destruct H as [-> _]. reflexivity.
  - exfalso. destruct (parse_range_loop_parsed _ _ _ E part Hin) as [H1 H2].
    tauto.
Qed.

(** X18. Python's [int] rejects the empty string, so [parse_range] raises
    ValueError on every list with an empty part (the empty list, a doubled
    or trailing comma) and on every part that begins with a dash: negative
    label numbers cannot be given. *)
Theorem parse_range_rejects_empty_and_negative (astr part : string) :
  py_int EmptyString = None ->
  In part (py_split "," astr) ->
  part = EmptyString \/ (exists rest, part = String "-" rest) ->
  parse_range py_int astr = Raise "ValueError".
Proof.
  intros Hint Hin Hpart. apply (parse_range_raises astr part Hin).
  left. unfold first_of. destruct Hpart as [->|[rest ->]]; simpl; exact Hint.
Qed.

End ParseRangeFacts.

(** ** Bounding box of a mask *)

Lemma range_from_sorted (n : nat) :
  forall k, StronglySorted Z.lt (map Z.of_nat (seq k n)).
Proof.
  induction n as [|n IH]; intros k; simpl; constructor; [apply IH|].
  apply Forall_forall. intros z Hz. apply in_map_iff in Hz.
  destruct Hz as [i [<- Hi]]. apply in_seq in Hi. lia.
Qed.

Lemma filter_sorted (p : Z -> bool) (l : list Z) :
  StronglySorted Z.lt l -> StronglySorted Z.lt (filter p l).
Proof.
  induction 1 as [|h t Hs IH Hall]; simpl; [constructor|].
  destruct (p h); [|exact IH]. constructor; [exact IH|].
  rewrite Forall_forall in *. intros z Hz. apply filter_In in Hz.
  now apply Hall.
Qed.

Lemma sorted_first_last (h : Z) (t : list Z) :
  StronglySorted Z.lt (h :: t) ->
  In (last t h) (h :: t) /\ forall z, In z (h :: t) -> h <= z <= last t h.
Proof.
  revert h. induction t as [|y t IH]; intros h Hs.
  - simpl. split; [now left|]. intros z [<-|[]]. lia.
  - inversion Hs as [|? ? Ht Hall]; subst.
    destruct (IH y Ht) as [Hin Hb].
    assert (Hhy : h < y) by (rewrite Forall_forall in Hall; apply Hall; now left).
    change (last (y :: t) h) with (match t with [] => y | _ => last t h end).
    assert (E : match t with [] => y | _ => last t h end = last t y).
    { destruct t as [|w t']; [reflexivity|].
      clear. revert w. induction t' as [|v t' IH']; intros w; [reflexivity|].
      simpl in *. apply (IH' v). }
    rewrite E. split; [now right|].
    intros z [<-|Hz].
    + specialize (Hb y (or_introl eq_refl)). lia.
    + specialize (Hb z Hz). lia.
Qed.

Lemma first_last_spec (p : Z -> bool) (n : nat) :
  match first_last (filter p (range n)) with
  | Continue (lo, hi) =>
      (0 <= lo /\ lo <= hi /\ hi < Z.of_nat n) /\ p lo = true /\ p hi = true /\
      forall z, 0 <= z < Z.of_nat n -> p z = true -> lo <= z <= hi
  | Raise e =>
      e = "IndexError"%string /\ forall z, 0 <= z < Z.of_nat n -> p z = false
  | Exit _ => False
  end.
Proof.
  unfold first_last.
  destruct (filter p (range n)) as [|h t] eqn:E.
  - split; [reflexivity|]. intros z Hz. apply not_true_is_false. intros Hp.
    assert (Hin : In z (filter p (range n)))
      by (apply filter_In; split; [apply in_range; exact Hz|exact Hp]).
    rewrite E in Hin. contradiction.
  - assert (Hs : StronglySorted Z.lt (h :: t)).
    { rewrite <- E. apply filter_sorted. apply range_from_sorted. }
    destruct (sorted_first_last h t Hs) as [Hlast Hb].
    assert (Hmem : forall z, In z (h :: t) -> 0 <= z < Z.of_nat n /\ p z = true).
    { intros z Hz. rewrite <- E in Hz. apply filter_In in Hz.
      destruct Hz as [Hz Hp]. apply in_range in Hz. auto. }
    destruct (Hmem h (or_introl eq_refl)) as [Hh Hph].
    destruct (Hmem _ Hlast) as [Hl Hpl].
    pose proof (Hb _ Hlast).
    split; [lia|]. split; [exact Hph|]. split; [exact Hpl|].
    intros z Hz Hp. apply Hb. rewrite <- E. apply filter_In.
    split; [apply in_range; exact Hz|exact Hp].
Qed.

Section BoundingBoxFacts.

Variables nx ny nz : nat.

Lemma any_yz_spec (x : mask) (i : Z) :
  any_yz ny nz x i = true <->
  exists j k, 0 <= j < Z.of_nat ny /\ 0 <= k < Z.of_nat nz /\ x (i, j, k) = true.
Proof.
  unfold any_yz. rewrite existsb_exists. split.
  - intros [j [Hj H]]. apply existsb_exists in H. destruct H as [k [Hk H]].
    apply in_range in Hj, Hk. now exists j, k.
  - intros [j [k [Hj [Hk H]]]]. exists j. split; [now apply in_range|].
    apply existsb_exists. exists k. split; [now apply in_range|exact H].
Qed.

Lemma any_xz_spec (x : mask) (j : Z) :
  any_xz nx nz x j = true <->
  exists i k, 0 <= i < Z.of_nat nx /\ 0 <= k < Z.of_nat nz /\ x (i, j, k) = true.
Proof.
  unfold any_xz. rewrite existsb_exists. split.
  - intros [i [Hi H]]. apply existsb_exists in H. destruct H as [k [Hk H]].
    apply in_range in Hi, Hk. now exists i, k.
  - intros [i [k [Hi [Hk H]]]]. exists i. split; [now apply in_range|].
    apply existsb_exists. exists k. split; [now apply in_range|exact H].
Qed.

Lemma any_xy_spec (x : mask) (k : Z) :
  any_xy nx ny x k = true <->
  exists i j, 0 <= i < Z.of_nat nx /\ 0 <= j < Z.of_nat ny /\ x (i, j, k) = true.
Proof.
  unfold any_xy. rewrite existsb_exists. split.
  - intros [i [Hi H]]. apply existsb_exists in H. destruct H as [j [Hj H]].
    apply in_range in Hi, Hj. now exists i, j.
  - intros [i [j [Hi [Hj H]]]]. exists i. split; [now apply in_range|].
    apply existsb_exists. exists j. split; [now apply in_range|exact H].
Qed.

Lemma in_grid_bounds (c : voxel) :
  in_grid nx ny nz c = true <->
  0 <= vx c < Z.of_nat nx /\ 0 <= vy c < Z.of_nat ny /\ 0 <= vz c < Z.of_nat nz.
Proof.
  unfold in_grid. rewrite !andb_true_iff, !Z.leb_le, !Z.ltb_lt. tauto.
Qed.

End BoundingBoxFacts.

Section BoundingBoxSpec.

Variables nx ny nz : nat.

Lemma bounding_box_cases (x : mask) :
  match bounding_box nx ny nz x with
  | Continue bb => tight_bounds nx ny nz x bb
  | Raise e => e = "IndexError"%string /\ empty_mask nx ny nz x
  | Exit _ => False
  end.
Proof.
  unfold bounding_box.
  pose proof (first_last_spec (any_yz ny nz x) nx) as Hx.
  pose proof (first_last_spec (any_xz nx nz x) ny) as Hy.
  pose proof (first_last_spec (any_xy nx ny x) nz) as Hz.
  destruct (first_last (filter (any_yz ny nz x) (range nx))) as [s|e|[x0 x1]];
    [contradiction| |].
  { destruct Hx as [-> Hx]. split; [reflexivity|].
    intros [[cx cy] cz] Hc. apply in_grid_bounds in Hc.
    unfold vx, vy, vz in Hc. cbn [fst snd] in Hc.
    apply not_true_is_false. intros Hc'.
    assert (H : any_yz ny nz x cx = true)
      by (apply any_yz_spec; exists cy, cz; repeat split; tauto).
    rewrite Hx in H by tauto. discriminate. }
  destruct (first_last (filter (any_xz nx nz x) (range ny))) as [s|e|[y0 y1]];
    [contradiction| |].
  { destruct Hy as [-> Hy]. split; [reflexivity|].
    intros [[cx cy] cz] Hc. apply in_grid_bounds in Hc.
    unfold vx, vy, vz in Hc. cbn [fst snd] in Hc.
    apply not_true_is_false. intros Hc'.
    assert (H : any_xz nx nz x cy = true)
      by (apply any_xz_spec; exists cx, cz; repeat split; tauto).
    rewrite Hy in H by tauto. discriminate. }
  destruct (first_last (filter (any_xy nx ny x) (range nz))) as [s|e|[z0 z1]];
    [contradiction| |].
  { destruct Hz as [-> Hz]. split; [reflexivity|].
    intros [[cx cy] cz] Hc. apply in_grid_bounds in Hc.
    unfold vx, vy, vz in Hc. cbn [fst snd] in Hc.
    apply not_true_is_false. intros Hc'.
    assert (H : any_xy nx ny x cz = true)
      by (apply any_xy_spec; exists cx, cy; repeat split; tauto).
    rewrite Hz in H by tauto. discriminate. }
  destruct Hx as [Hxr [Hx0 [Hx1 Hxb]]].
  destruct Hy as [Hyr [Hy0 [Hy1 Hyb]]].
  destruct Hz as [Hzr [Hz0 [Hz1 Hzb]]].
  unfold tight_bounds. split.
  - intros [[cx cy] cz] Hc Hc'. apply in_grid_bounds in Hc.
    unfold vx, vy, vz in *. cbn [fst snd] in *.
    split; [|split].
    + apply Hxb; [tauto|]. apply any_yz_spec. exists cy, cz. repeat split; tauto.
    + apply Hyb; [tauto|]. apply any_xz_spec. exists cx, cz. repeat split; tauto.
    + apply Hzb; [tauto|]. apply any_xy_spec. exists cx, cy. repeat split; tauto.
  - apply any_yz_spec in Hx0, Hx1. apply any_xz_spec in Hy0, Hy1.
    apply any_xy_spec in Hz0, Hz1.
    destruct Hx0 as [j0 [k0 [? [? ?]]]]. destruct Hx1 as [j1 [k1 [? [? ?]]]].
    destruct Hy0 as [i2 [k2 [? [? ?]]]]. destruct Hy1 as [i3 [k3 [? [? ?]]]].
    destruct Hz0 as [i4 [j4 [? [? ?]]]]. destruct Hz1 as [i5 [j5 [? [? ?]]]].
    repeat split.
    + exists (x0, j0, k0). split; [apply in_grid_bounds; cbn; lia|now split].
    + exists (x1, j1, k1). split; [apply in_grid_bounds; cbn; lia|now split].
    + exists (i2, y0, k2). split; [apply in_grid_bounds; cbn; lia|now split].
    + exists (i3, y1, k3). split; [apply in_grid_bounds; cbn; lia|now split].
    + exists (i4, j4, z0). split; [apply in_grid_bounds; cbn; lia|now split].
    + exists (i5, j5, z1). split; [apply in_grid_bounds; cbn; lia|now split].
Qed.

(** X19. [bounding_box] raises IndexError exactly on a mask without
    voxels; on any other mask it returns, for each axis, the smallest and
    the largest index at which the mask has a voxel: all voxels of the
    mask lie within the bounds and each bound is reached. *)
Theorem bounding_box_spec (x : mask) :
  (empty_mask nx ny nz x <-> bounding_box nx ny nz x = Raise "IndexError") /\
  match bounding_box nx ny nz x with
  | Continue bb => tight_bounds nx ny nz x bb
  | Raise e => e = "IndexError"%string
  | Exit _ => False
  end.
Proof.
  pose proof (bounding_box_cases x) as H.
  destruct (bounding_box nx ny nz x) as [s|e|[[[[[x0 x1] y0] y1] z0] z1]].
  - contradiction.
  - destruct H as [-> He]. split; [|reflexivity]. split; auto.
  - split; [|exact H]. split; [|discriminate].
    intros Hempty. exfalso. destruct H as [_ [[c [Hc [Hxc _]]] _]].
    rewrite (Hempty c Hc) in Hxc. discriminate.
Qed.

End BoundingBoxSpec.

Lemma slice_index_inside (n i : Z) : 0 <= i <= n -> slice_index n i = i.
Proof.
  intros H. unfold slice_index.
  destruct (Z.ltb_spec i 0); [lia|]. apply Z.min_l. lia.
Qed.

Section ExtractBox.

Variables nx ny nz : nat.

(** X20. Cutting a mask to its own bounding box with [extract_box] loses
    voxels: the slices stop before the upper bounds, so the box has
    [max - min] cells along each axis instead of [max - min + 1], no cell
    of the box comes from a maximal plane of the mask, and at least one
    voxel of the mask is left out.  A mask of one voxel gives an empty
    box. *)
Theorem extract_box_drops_upper_planes (x : mask) (x0 x1 y0 y1 z0 z1 : Z) :
  bounding_box nx ny nz x = Continue (x0, x1, y0, y1, z0, z1) ->
  let b := extract_box nx ny nz x (x0, x1, y0, y1, z0, z1) in
  let sx := Z.to_nat (x1 - x0) in
  let sy := Z.to_nat (y1 - y0) in
  let sz := Z.to_nat (z1 - z0) in
  box_shape b = (sx, sy, sz) /\
  (forall c, box_cell b c = x (x0 + vx c, y0 + vy c, z0 + vz c)) /\
  (forall c, in_grid sx sy sz c = true ->
             x0 + vx c < x1 /\ y0 + vy c < y1 /\ z0 + vz c < z1) /\
  (exists v, in_grid nx ny nz v = true /\ x v = true /\
             forall c, in_grid sx sy sz c = true ->
                       (x0 + vx c, y0 + vy c, z0 + vz c) <> v).
Proof.
  intros Hbb b sx sy sz.
  pose proof (bounding_box_cases nx ny nz x) as H. rewrite Hbb in H.
  destruct H as [Hin [[c0 [Hg0 [Hc0 E0]]] [[c1 [Hg1 [Hc1 E1]]]
    [[c2 [Hg2 [Hc2 E2]]] [[c3 [Hg3 [Hc3 E3]]] [[c4 [Hg4 [Hc4 E4]]] [c5 [Hg5 [Hc5 E5]]]]]]]]].
  pose proof (Hin c0 Hg0 Hc0) as B0. pose proof (Hin c1 Hg1 Hc1) as B1.
  pose proof (Hin c2 Hg2 Hc2) as B2. pose proof (Hin c3 Hg3 Hc3) as B3.
  pose proof (Hin c4 Hg4 Hc4) as B4. pose proof (Hin c5 Hg5 Hc5) as B5.
  pose proof Hg0 as G0. pose proof Hg1 as G1. pose proof Hg2 as G2.
  pose proof Hg3 as G3. pose proof Hg4 as G4. pose proof Hg5 as G5.
  apply in_grid_bounds in G0, G1, G2, G3, G4, G5.
  assert (Sx0 : slice_index (Z.of_nat nx) x0 = x0) by (apply slice_index_inside; lia).
  assert (Sx1 : slice_index (Z.of_nat nx) x1 = x1) by (apply slice_index_inside; lia).
  assert (Sy0 : slice_index (Z.of_nat ny) y0 = y0) by (apply slice_index_inside; lia).
  assert (Sy1 : slice_index (Z.of_nat ny) y1 = y1) by (apply slice_index_inside; lia).
  assert (Sz0 : slice_index (Z.of_nat nz) z0 = z0) by (apply slice_index_inside; lia).
  assert (Sz1 : slice_index (Z.of_nat nz) z1 = z1) by (apply slice_index_inside; lia).
  assert (Hcells : forall c, in_grid sx sy sz c = true ->
            x0 + vx c < x1 /\ y0 + vy c < y1 /\ z0 + vz c < z1).
  { intros c Hc. apply in_grid_bounds in Hc. unfold sx, sy, sz in Hc. lia. }
  unfold b, extract_box. cbn [box_shape box_cell].
  rewrite Sx0, Sx1, Sy0, Sy1, Sz0, Sz1.
  split; [reflexivity|]. split; [reflexivity|]. split; [exact Hcells|].
  exists c1. split; [exact Hg1|]. split; [exact Hc1|].
  intros c Hc E. apply Hcells in Hc. rewrite <- E in E1.
  unfold vx in E1 at 1. cbn [fst snd] in E1. lia.
Qed.

End ExtractBox.

(** ** Thresholding a probabilistic atlas *)

Lemma py_index_none (n : nat) (i : Z) :
  py_index n i = None <-> i < - Z.of_nat n \/ Z.of_nat n <= i.
Proof.
  unfold py_index.
  destruct (Z.leb_spec 0 i), (Z.ltb_spec i (Z.of_nat n)),
    (Z.leb_spec (- Z.of_nat n) i), (Z.ltb_spec i 0); simpl;
    split; intros Hnone; try discriminate; try lia; reflexivity.
Qed.

Lemma py_index_some (n : nat) (i : Z) (ch : nat) :
  py_index n i = Some ch ->
  (ch < n)%nat /\ (Z.of_nat ch = i \/ Z.of_nat ch = i + Z.of_nat n).
Proof.
  unfold py_index.
  destruct (Z.leb_spec 0 i), (Z.ltb_spec i (Z.of_nat n)),
    (Z.leb_spec (- Z.of_nat n) i), (Z.ltb_spec i 0); simpl;
    intros Hsome; inversion Hsome; subst; lia.
Qed.

Section CreateMask.

Variable in_data : atlas_image.
Variable threshold : R.

Lemma create_mask_loop_spec (labels : list Z) :
  forall mask_data,
    match create_mask_loop in_data threshold labels mask_data with
    | Continue m =>
        (forall c, m c = if selected in_data threshold labels c
                         then 1%R else mask_data c) /\
        (forall label, In label labels ->
           label <= Z.of_nat (n_channels in_data) ->
           py_index (n_channels in_data) label <> None)
    | Raise e =>
        e = "IndexError"%string /\
        exists label, In label labels /\
          label <= Z.of_nat (n_channels in_data) /\
          py_index (n_channels in_data) label = None
    | Exit _ => False
    end.
Proof.
  induction labels as [|label rest IH]; intros mask_data;
    cbn [create_mask_loop selected existsb].
  - split; [reflexivity|]. intros label [].
  - destruct (Z.leb_spec label (Z.of_nat (n_channels in_data))) as [Hle|Hgt].
    + destruct (py_index (n_channels in_data) label) as [ch|] eqn:Hidx.
      * specialize (IH (fun c => if above (atlas_at in_data c ch) threshold
                                 then 1%R else mask_data c)).
        destruct (create_mask_loop in_data threshold rest _) as [s|e|m].
        -- exact IH.
        -- destruct IH as [He [l [Hl H]]]. split; [exact He|].
           exists l. split; [now right|exact H].
        -- destruct IH as [Hm Hvalid]. split.
           ++ intros c. rewrite Hm. fold (selected in_data threshold rest c).
              cbn [andb]. destruct (above (atlas_at in_data c ch) threshold);
                cbn [orb]; [now destruct (selected in_data threshold rest c)|reflexivity].
           ++ intros l [<-|Hl] Hl'; [congruence|now apply Hvalid].
      * split; [reflexivity|]. exists label. split; [now left|]. now split.
    + specialize (IH mask_data).
      destruct (create_mask_loop in_data threshold rest mask_data) as [s|e|m].
      * exact IH.
      * destruct IH as [He [l [Hl H]]]. split; [exact He|].
        exists l. split; [now right|exact H].
      * destruct IH as [Hm Hvalid]. split.
        -- intros c. rewrite Hm. reflexivity.
        -- intros l [<-|Hl] Hl'; [lia|now apply Hvalid].
Qed.

Lemma selected_spec (labels : list Z) (c : voxel) :
  selected in_data threshold labels c = true <->
  exists label ch, In label labels /\
    py_index (n_channels in_data) label = Some ch /\
    label < Z.of_nat (n_channels in_data) /\
    above (atlas_at in_data c ch) threshold = true.
Proof.
  unfold selected. rewrite existsb_exists. split.
  - intros [label [Hin H]]. apply andb_prop in H. destruct H as [Hle H].
    destruct (py_index (n_channels in_data) label) as [ch|] eqn:Hidx;
      [|discriminate].
    exists label, ch. repeat split; auto.
    apply py_index_some in Hidx. lia.
  - intros [label [ch [Hin [Hidx [Hlt H]]]]]. exists label. split; [exact Hin|].
    rewrite Hidx, H, andb_true_r. apply Z.leb_le. lia.
Qed.

Lemma create_mask_run (labels : list Z) (m : voxel -> R) :
  create_mask in_data threshold labels = Continue m ->
  forall c, m c = if selected in_data threshold labels c then 1%R else 0%R.
Proof.
  intros Hrun c. unfold create_mask in Hrun.
  pose proof (create_mask_loop_spec labels (fun _ => 0%R)) as H.
  rewrite Hrun in H. destruct H as [Hm _]. apply Hm.
Qed.

Lemma create_mask_outcome (labels : list Z) :
  let n := Z.of_nat (n_channels in_data) in
  match create_mask in_data threshold labels with
  | Continue _ => forall label, In label labels -> label <> n /\ - n <= label
  | Raise e => e = "IndexError"%string /\
               exists label, In label labels /\ (label = n \/ label < - n)
  | Exit _ => False
  end.
Proof.
  intros n. unfold create_mask.
  pose proof (create_mask_loop_spec labels (fun _ => 0%R)) as H.
  destruct (create_mask_loop in_data threshold labels (fun _ => 0%R)) as [s|e|m].
  - contradiction.
  - destruct H as [-> [label [Hin [Hle Hnone]]]].
    apply py_index_none in Hnone. fold n in Hle, Hnone.
    split; [reflexivity|]. exists label. split; [exact Hin|]. lia.
  - destruct H as [_ Hvalid]. intros label Hin.
    destruct (Z.le_gt_cases label n) as [Hle|Hgt]; [|lia].
    specialize (Hvalid label Hin Hle).
    destruct (py_index (n_channels in_data) label) as [ch|] eqn:Hidx;
      [|congruence].
    apply py_index_some in Hidx. fold n in Hidx. lia.
Qed.

(** X21. The mask saved by create_mask.py holds only 0 and 1, and it is 1
    at a voxel exactly when some label of the command line selects a
    channel of the atlas whose value there is above the threshold; a
    negative label counts channels from the end, a label greater than the
    number of channels is skipped without notice. *)
Theorem create_mask_spec (labels : list Z) (m : voxel -> R) :
  create_mask in_data threshold labels = Continue m ->
  forall c,
    (m c = 0%R \/ m c = 1%R) /\
    (m c = 1%R <->
     exists label ch, In label labels /\
       py_index (n_channels in_data) label = Some ch /\
       label < Z.of_nat (n_channels in_data) /\
       above (atlas_at in_data c ch) threshold = true).
Proof.
  intros Hrun c. rewrite (create_mask_run labels m Hrun c), <- selected_spec.
  destruct (selected in_data threshold labels c).
  - split; [now right|]. split; reflexivity.
  - split; [now left|]. split; [intros E; exfalso; lra|discriminate].
Qed.

(** X22. create_mask.py stops with IndexError, and saves no mask, exactly
    when one of the labels equals the number of channels of the atlas (the
    test [label <= shape[3]] lets it through) or lies below minus that
    number; every other list of labels gives a mask. *)
Theorem create_mask_index_error (labels : list Z) :
  let n := Z.of_nat (n_channels in_data) in
  (create_mask in_data threshold labels = Raise "IndexError" <->
   exists label, In label labels /\ (label = n \/ label < - n)) /\
  ((forall label, In label labels -> label <> n /\ - n <= label) ->
   exists m, create_mask in_data threshold labels = Continue m).
Proof.
  intros n. pose proof (create_mask_outcome labels) as H. cbv zeta in H. fold n in H.
  destruct (create_mask in_data threshold labels) as [s|e|m].
  - contradiction.
  - destruct H as [-> Hbad]. split.
    + split; [intros _; exact Hbad|reflexivity].
    + intros Hall. exfalso. destruct Hbad as [label [Hin Hbad]].
      destruct (Hall label Hin). lia.
  - split.
    + split; [discriminate|]. intros [label [Hin Hbad]]. exfalso.
      destruct (H label Hin). lia.
    + intros _. now exists m.
Qed.

Lemma above_monotone (v : npfloat) (t t' : R) :
  (t <= t')%R -> above v t' = true -> above v t = true.
Proof.
  intros Ht. destruct v as [|r]; simpl; [discriminate|].
  destruct (Rlt_dec t' r); [|discriminate]. intros _.
  destruct (Rlt_dec t r); [reflexivity|lra].
Qed.

End CreateMask.

(** X23. Raising the threshold can only shrink the mask of create_mask.py:
    for the same atlas and labels, every voxel of the mask at the higher
    threshold is in the mask at the lower one; and the labels alone decide
    whether a mask is produced. *)
Theorem create_mask_threshold_monotone (in_data : atlas_image) (t t' : R)
  (labels : list Z) (m : voxel -> R) :
  (t <= t')%R ->
  create_mask in_data t' labels = Continue m ->
  exists m0, create_mask in_data t labels = Continue m0 /\
             forall c, m c = 1%R -> m0 c = 1%R.
Proof.
  intros Ht Hrun.
  pose proof (create_mask_outcome in_data t' labels) as Hok.
  pose proof (create_mask_outcome in_data t labels) as H.
  cbv zeta in Hok, H. rewrite Hrun in Hok.
  destruct (create_mask in_data t labels) as [s|e|m0] eqn:Hrun0.
  - contradiction.
  - exfalso. destruct H as [_ [label [Hin Hbad]]]. destruct (Hok label Hin). lia.
  - exists m0. split; [reflexivity|]. intros c Hc.
    rewrite (create_mask_run in_data t' labels m Hrun c) in Hc.
    rewrite (create_mask_run in_data t labels m0 Hrun0 c).
    destruct (selected in_data t' labels c) eqn:Hsel; [|exfalso; lra].
    apply selected_spec in Hsel.
    destruct Hsel as [label [ch [Hin [Hidx [Hlt Hab]]]]].
    assert (Hsel : selected in_data t labels c = true).
    { apply selected_spec. exists label, ch. repeat split; auto.
      now apply (above_monotone _ t t'). }
    now rewrite Hsel.
Qed.

(** ** The triangle inequality of the boundary distance *)




Section Triangle.

Variables nx ny nz : nat.



End Triangle.

(** * Instances of the further properties *)

Lemma similarity_one_empty_witness :
  similarity 3 3 3 no_voxel (one_voxel (1, 1, 1)) (1, 1, 1)%R
  = (Num 0, NaN, np_sum 3 3 3 no_voxel, np_sum 3 3 3 (one_voxel (1, 1, 1))).
Proof.
  apply (similarity_one_empty 3 3 3).
  - left. intros c _. reflexivity.
  - intros [_ H]. specialize (H (1, 1, 1) eq_refl). discriminate.
Defined.

(** A corner voxel against the mask that fills a 3x3x3 array: the masks
    differ, yet the distance from the voxel to the full mask is 0. *)
Lemma hausdorff_zero_iff_surface_included_witness :
  hausdorff_distance 3 3 3 (one_voxel (0, 0, 0)) (box (0, 0, 0) (2, 2, 2))
    (1, 1, 1)%R = Num 0.
Proof.
  destruct (hausdorff_zero_iff_surface_included 3 3 3 (one_voxel (0, 0, 0))
              (box (0, 0, 0) (2, 2, 2)) (1, 1, 1)%R) as [_ [_ Hzero]];
    try (cbn [fst snd]; lra).
  apply Hzero. split; [|split].
  - exists (0, 0, 0). split; vm_compute; reflexivity.
  - exists (0, 0, 0). split; vm_compute; reflexivity.
  - intros a Ha. apply surface_set_nonzero in Ha. vm_compute in Ha.
    destruct Ha as [<-|[]]. split; vm_compute; reflexivity.
Defined.

Lemma border_voxels_are_surface_witness :
  surface_voxels 3 3 3 (fun _ => true) (0, 1, 1) = true.
Proof.
  apply border_voxels_are_surface.
  - reflexivity.
  - reflexivity.
  - left. reflexivity.
Defined.

Lemma full_mask_surface_is_border_witness :
  surface_voxels 3 3 3 (fun _ => true) (1, 1, 1) = true <->
  on_border 3 3 3 (1, 1, 1).
Proof.
  apply full_mask_surface_is_border.
  - intros v _. reflexivity.
  - reflexivity.
Defined.

Lemma metrics_tensors_consistent_witness :
  res_dice (metrics_entry (intra_observer_metrics 2 2 2
              one_observer_three_templates 1 (1, 1, 1)%R) 0 0 2)
  = res_dice (metrics_entry (intra_observer_metrics 2 2 2
                one_observer_three_templates 1 (1, 1, 1)%R) 0 2 0).
Proof.
  assert (H0 : (0 < n_obs one_observer_three_templates)%nat) by (simpl; lia).
  assert (H1 : (0 < n_tmp one_observer_three_templates)%nat) by (simpl; lia).
  assert (H2 : (2 < n_tmp one_observer_three_templates)%nat) by (simpl; lia).
  exact (proj1 (metrics_tensors_consistent 2 2 2 one_observer_three_templates 1
                  (1, 1, 1)%R 0 0 2 H0 H1 H2)).
Defined.

Lemma stat_maps_bounds_witness :
  exists label_means label_vars p,
    label_stats_maps one_observer_three_templates [1] ["obs-01"%string]
    = Continue (label_means, label_vars, p) /\
    exists q, p 0%nat (0, 0, 0) = Num q /\ (0 <= q <= 1)%R.
Proof.
  destruct (stat_maps_bounds one_observer_three_templates [1] ["obs-01"%string])
    as [label_means [label_vars [p [Hrun Hb]]]];
    [reflexivity|simpl; lia|simpl; lia|].
  exists label_means, label_vars, p. split; [exact Hrun|].
  destruct (Hb 0%nat (0, 0, 0)) as [_ Hq]; [simpl; lia|exact Hq].
Defined.


Lemma dirs_with_empty_observer_loaded :
  exists st u,
    load_volumes dirs_with_empty_observer = Continue (st, (1, 1, 2)%R, u).
Proof.
  unfold dirs_with_empty_observer. run_load_loop.
  eexists _, _. rewrite vox_any_head by (cbn [fst]; lra). cbn [negb].
  rewrite single_volume_check. reflexivity.
Qed.

Lemma empty_observer_stops_atlas_witness :
  main_atlas dirs_with_empty_observer [1] = Raise "IndexError".
Proof.
  destruct dirs_with_empty_observer_loaded as [st [u Hload]].
  destruct (empty_observer_stops_atlas dirs_with_empty_observer [1]
              {| basename := "obs-01"; isdir := true; images := [] |})
    as [Hrun _].
  - left. reflexivity.
  - reflexivity.
  - reflexivity.
  - intros d1 d2 [<-|[<-|[]]] [<-|[<-|[]]] _ _ H1 H2;
      cbn [images] in *; congruence.
  - exact (Hrun _ Hload).
Defined.


Lemma parse_range_rejects_empty_and_negative_witness :
  parse_range digits_int "-3" = Raise "ValueError".
Proof.
  apply (parse_range_rejects_empty_and_negative digits_int "-3" "-3").
  - reflexivity.
  - left. reflexivity.
  - right. now exists "3"%string.
Defined.

Lemma extract_box_drops_upper_planes_witness :
  box_shape (extract_box 3 3 3 (one_voxel (1, 1, 1)) (1, 1, 1, 1, 1, 1))
  = (0%nat, 0%nat, 0%nat).
Proof.
  assert (Hbb : bounding_box 3 3 3 (one_voxel (1, 1, 1))
                = Continue (1, 1, 1, 1, 1, 1)) by (vm_compute; reflexivity).
  exact (proj1 (extract_box_drops_upper_planes 3 3 3 (one_voxel (1, 1, 1))
                  1 1 1 1 1 1 Hbb)).
Defined.

Lemma create_mask_spec_witness :
  exists m,
    create_mask two_channel_atlas (1 / 2) [0; 5] = Continue m /\
    forall c, m c = 0%R \/ m c = 1%R.
Proof.
  eexists. split; [reflexivity|]. intros c.
  apply (create_mask_spec two_channel_atlas (1 / 2) [0; 5] _ eq_refl c).
Defined.

Lemma create_mask_threshold_monotone_witness :
  exists m m0,
    create_mask two_channel_atlas (1 / 2) [0] = Continue m /\
    create_mask two_channel_atlas 0 [0] = Continue m0 /\
    forall c, m c = 1%R -> m0 c = 1%R.
Proof.
  pose (m := fun c : voxel =>
               if above (atlas_at two_channel_atlas c 0) (1 / 2)
               then 1%R else 0%R).
  assert (Hrun : create_mask two_channel_atlas (1 / 2) [0] = Continue m)
    by reflexivity.
  assert (Hle : (0 <= 1 / 2)%R) by lra.
  destruct (create_mask_threshold_monotone two_channel_atlas 0 (1 / 2) [0] m
              Hle Hrun) as [m0 [H0 Hsub]].
  exists m, m0. auto.
Defined.

